(** * A shallow embedding of [interpreter.c]

    The interpreter keeps a tape of [MEMORY_SIZE] cells of C type [char] and a
    pointer [current_cell] into it, reads commands line by line from the
    standard input and executes them with [parse_command] (bracket-free text)
    and [parse_block] (text with loops).

    Conventions of the embedding:
    - a C string is the list of the characters that precede its terminating
      NUL, so [strlen] is [length];
    - a cell is the value of a [char] on a platform where [char] is signed and
      conversion to it wraps: an integer of [-128, 127];
    - [current_cell] is the pointer difference [current_cell - memory];
    - the standard input is the list of the bytes that are still unread, the
      standard output the list of the bytes written so far;
    - the [int] counters of the two bracket scans are unbounded integers: a
      command shorter than 2^31 characters cannot overflow them. *)

From Stdlib Require Import ZArith Ascii String Lia.
From stdpp Require Import base option list.

Local Open Scope char_scope.
Local Open Scope Z_scope.

(** ** Constants *)

Definition MEMORY_SIZE : Z := 256.

Definition INVALID_BLOCK : Z := -1.
Definition CLOSED_BLOCK : Z := 0.
Definition OPENED_BLOCK : Z := 1.

(** [EOF] as [getchar] returns it. *)
Definition EOF : Z := -1.

(** A string literal as a C string. *)
Definition cstr (s : string) : list ascii := list_ascii_of_string s.

(** ** The bracket scans *)

(** [strchr command c - command]: the index of the first [c], [None] for the
    null pointer. *)
Fixpoint strchr (command : list ascii) (c : ascii) : option nat :=
  match command with
  | [] => None
  | x :: rest => if Ascii.eqb x c then Some O else S <$> strchr rest c
  end.

(** [strchr(command, c)] as a condition: the pointer is not null. *)
Definition has_char (command : list ascii) (c : ascii) : bool :=
  match strchr command c with
  | Some _ => true
  | None => false
  end.

(** The loop of [is_open_block], entered with the current [balance]. *)
Fixpoint is_open_block_from (balance : Z) (command : list ascii) : Z :=
  match command with
  | [] => if 0 <? balance then OPENED_BLOCK else CLOSED_BLOCK
  | c :: rest =>
      if Ascii.eqb c "[" then is_open_block_from (balance + 1) rest
      else if Ascii.eqb c "]" then
        let balance := balance - 1 in
        if balance <? 0 then INVALID_BLOCK
        else is_open_block_from balance rest
      else is_open_block_from balance rest
  end.

Definition is_open_block (command : list ascii) : Z :=
  is_open_block_from 0 command.

(** The loop of [find_closing], entered at index [i] with the current
    [balance]. *)
Fixpoint find_closing_from (i balance : Z) (command : list ascii) : Z :=
  match command with
  | [] => INVALID_BLOCK
  | c :: rest =>
      if Ascii.eqb c "[" then find_closing_from (i + 1) (balance + 1) rest
      else if Ascii.eqb c "]" then
        let balance := balance - 1 in
        if balance =? 0 then i
        else find_closing_from (i + 1) balance rest
      else find_closing_from (i + 1) balance rest
  end.

Definition find_closing (command : list ascii) : Z :=
  find_closing_from 0 0 command.

(** ** Bracket counts, for the statements about the scans *)

Fixpoint count_char (c : ascii) (l : list ascii) : nat :=
  match l with
  | [] => O
  | x :: rest => (if Ascii.eqb x c then 1 else 0)%nat + count_char c rest
  end.

(** Openers minus closers. *)
Definition net (l : list ascii) : Z :=
  Z.of_nat (count_char "[" l) - Z.of_nat (count_char "]" l).

(** The nesting counter never goes negative on a prefix of [l]. *)
Definition never_negative (l : list ascii) : Prop :=
  ∀ k : nat, 0 <= net (take k l).

(** ** The interpreter state *)

(** The two globals of the program, [memory] and [current_cell], and the two
    streams it uses. *)
Record state : Type := mkState {
  memory : list Z;
  current_cell : Z;
  stdin : list ascii;
  stdout : list ascii
}.

Definition set_memory (m : list Z) (s : state) : state :=
  mkState m (current_cell s) (stdin s) (stdout s).

Definition set_current_cell (p : Z) (s : state) : state :=
  mkState (memory s) p (stdin s) (stdout s).

Definition set_stdin (i : list ascii) (s : state) : state :=
  mkState (memory s) (current_cell s) i (stdout s).

(** The state at process start, before anything is read or written. *)
Definition initial_state (input : list ascii) : state :=
  mkState (replicate (Z.to_nat MEMORY_SIZE) 0) 0 input [].

(** Conversion of an [int] to [char]. *)
Definition to_char (z : Z) : Z := (z + 128) mod 256 - 128.

(** The byte that [printf("%c", z)] writes. *)
Definition byte_of (z : Z) : ascii := ascii_of_N (Z.to_N (z mod 256)).

Definition LF : ascii := "010".

(** [printf] of a fixed text. *)
Definition printf (text : list ascii) (s : state) : state :=
  mkState (memory s) (current_cell s) (stdin s) (stdout s ++ text).

(** [getchar]: the next byte as an [int] of [0, 255], or [EOF]. *)
Definition getchar (s : state) : Z * state :=
  match stdin s with
  | [] => (EOF, s)
  | c :: rest => (Z.of_N (N_of_ascii c), set_stdin rest s)
  end.

(** [*current_cell] as an rvalue; [None] when the pointer is outside
    [memory], where the read is undefined. *)
Definition load (s : state) : option Z :=
  if current_cell s <? 0 then None
  else memory s !! Z.to_nat (current_cell s).

(** [*current_cell = v]; [None] when the pointer is outside [memory]. *)
Definition store (v : Z) (s : state) : option state :=
  if current_cell s <? 0 then None
  else
    let i := Z.to_nat (current_cell s) in
    if (i <? length (memory s))%nat
    then Some (set_memory (<[i := v]> (memory s)) s)
    else None.

(** ** Results *)

(** How one pass of the [switch] in [parse_command] leaves: [Next] for
    [break] (the loop goes on), [Return] for [return], [Fault] for an access
    outside [memory]. *)
Inductive flow : Type :=
  | Next (s : state)
  | Return (s : state)
  | Fault.

(** What a call comes to: it returns in a state, its behaviour is undefined,
    or the fuel of the model ran out before it returned. *)
Inductive result : Type :=
  | Done (s : state)
  | Undefined
  | Timeout.

Definition bind (r : result) (k : state → result) : result :=
  match r with
  | Done s => k s
  | Undefined => Undefined
  | Timeout => Timeout
  end.

Notation "'let*' s ':=' r 'in' k" := (bind r (λ s, k))
  (at level 10, s name, r at level 100, k at level 200, only parsing).

Definition flow_of_option (o : option state) : flow :=
  match o with
  | Some s => Next s
  | None => Fault
  end.

(** ** parse_command *)

Definition end_of_memory_message : list ascii :=
  cstr "Error! current cell is at the end of memory" ++ [LF].

Definition begining_of_memory_message : list ascii :=
  cstr "Error! current cell is in the begining of memory" ++ [LF].

(** The [switch] of [parse_command] on one character. *)
Definition dispatch (c : ascii) (s : state) : flow :=
  if Ascii.eqb c "+" then
    flow_of_option (v ← load s; store (to_char (v + 1)) s)
  else if Ascii.eqb c "-" then
    flow_of_option (v ← load s; store (to_char (v - 1)) s)
  else if Ascii.eqb c ">" then
    if 0 <? MEMORY_SIZE - current_cell s
    then Next (set_current_cell (current_cell s + 1) s)
    else Return (printf end_of_memory_message s)
  else if Ascii.eqb c "<" then
    if 0 <? current_cell s
    then Next (set_current_cell (current_cell s - 1) s)
    else Return (printf begining_of_memory_message s)
  else if Ascii.eqb c "." then
    flow_of_option (v ← load s; Some (printf [byte_of v] s))
  else if Ascii.eqb c "," then
    let '(ch, s1) := getchar s in
    flow_of_option
      (s2 ← store (to_char ch) s1;
       v ← load s2;
       if v =? 10 then store 0 s2 else Some s2)
  else Next s.

(** The [for] loop of [parse_command] over the characters of [command]. *)
Fixpoint parse_command_loop (command : list ascii) (s : state) : flow :=
  match command with
  | [] => Next s
  | c :: rest =>
      match dispatch c s with
      | Next s' => parse_command_loop rest s'
      | Return s' => Return s'
      | Fault => Fault
      end
  end.

(** [parse_command] returns nothing: its caller cannot tell a full scan from
    an early [return]. *)
Definition parse_command (command : list ascii) (s : state) : result :=
  match parse_command_loop command s with
  | Next s' => Done s'
  | Return s' => Done s'
  | Fault => Undefined
  end.

(** ** parse_block *)

(** [while ( *current_cell != 0) body]; [fuel] bounds the iterations. *)
Fixpoint while_current_cell
    (fuel : nat) (body : state → result) (s : state) : result :=
  match load s with
  | None => Undefined
  | Some v =>
      if v =? 0 then Done s
      else
        match fuel with
        | O => Timeout
        | S fuel => let* s' := body s in while_current_cell fuel body s'
        end
  end.

(** [strncpy(block_string, command + from, n)] into a zeroed buffer of more
    than [n] bytes. *)
Definition strncpy (command : list ascii) (from n : nat) : list ascii :=
  take n (drop from command).

(** [parse_block]; [fuel] bounds the depth of the calls and the iterations of
    each loop. The text is dereferenced at once, so the null pointer is
    undefined; so is a text without ["["], where [strchr] gives the null
    pointer, and one where [find_closing] gives [INVALID_BLOCK], which as a
    [size_t] makes the buffer of the block unallocatable. *)
Fixpoint parse_block (fuel : nat) (command : list ascii) (s : state) : result :=
  match fuel with
  | O => Timeout
  | S fuel =>
      let run (text : list ascii) (s : state) : result :=
        if has_char text "[" then parse_block fuel text s
        else parse_command text s in
      match command with
      | [] => Done s
      | _ :: _ =>
          match strchr command "[" with
          | None => Undefined
          | Some start_block_index =>
              let closing := find_closing command in
              if closing =? INVALID_BLOCK then Undefined
              else
                let end_block_index := Z.to_nat closing in
                let* s1 :=
                  if (start_block_index =? 0)%nat then Done s
                  else parse_command (strncpy command 0 start_block_index) s in
                let block_string :=
                  strncpy command (start_block_index + 1)
                    (end_block_index - start_block_index - 1) in
                let* s2 := while_current_cell fuel (run block_string) s1 in
                let len := (length command - end_block_index)%nat in
                if (1 <? len)%nat
                then run (strncpy command (end_block_index + 1) (len - 1)) s2
                else Done s2
          end
      end
  end.

(** The choice [parse_block] makes for a block and for what follows it:
    [parse_block] again when the text has a ["["], [parse_command] if not. *)
Definition run_segment (fuel : nat) (text : list ascii) (s : state) : result :=
  if has_char text "[" then parse_block fuel text s
  else parse_command text s.

(** ** The read loop *)

(** The loop of [get_user_input] over the input: the characters before the
    first line feed or [EOF], and what is left unread. A byte that converts
    to the [char] -1 compares equal to [EOF] too. *)
Fixpoint read_line (input : list ascii) : list ascii * list ascii :=
  match input with
  | [] => ([], [])
  | c :: rest =>
      let ch := to_char (Z.of_N (N_of_ascii c)) in
      if (ch =? 10) || (ch =? EOF) then ([], rest)
      else let '(line, rest') := read_line rest in (c :: line, rest')
  end.

(** The C string in a buffer: what precedes the first NUL. *)
Fixpoint until_nul (buffer : list ascii) : list ascii :=
  match buffer with
  | [] => []
  | c :: rest => if Ascii.eqb c zero then [] else c :: until_nul rest
  end.

Definition get_user_input (s : state) : list ascii * state :=
  let '(line, rest) := read_line (stdin s) in
  (until_nul line, set_stdin rest s).

Definition continuation_prompt : list ascii := cstr "... ".
Definition prompt : list ascii := cstr ">>> ".

Definition unbalanced_brackets_message : list ascii :=
  cstr "Error! unbalanced brackets" ++ [LF].

Definition unbalanced_blocks_message : list ascii :=
  cstr "Error! unbalanced blocks" ++ [LF].

(** [read_block]: [Some (None, s)] when it returns [NULL], [None] when the
    fuel ran out. *)
Fixpoint read_block (fuel : nat) (command : list ascii) (s : state)
    : option (option (list ascii) * state) :=
  let block_state := is_open_block command in
  if block_state =? OPENED_BLOCK then
    match fuel with
    | O => None
    | S fuel =>
        let '(new_command, s') := get_user_input (printf continuation_prompt s) in
        read_block fuel (command ++ new_command) s'
    end
  else if block_state =? INVALID_BLOCK
  then Some (None, printf unbalanced_brackets_message s)
  else Some (Some command, s).

(** The [do ... while] of [main] that waits for a line that is not empty. *)
Fixpoint read_command (fuel : nat) (s : state) : option (list ascii * state) :=
  match fuel with
  | O => None
  | S fuel =>
      let '(command, s') := get_user_input s in
      match command with
      | [] => read_command fuel s'
      | _ :: _ => Some (command, s')
      end
  end.

(** What [main] does with the line it has read, up to the next turn of its
    loop. [Done] means that the loop goes on to prompt again. *)
Definition execute_line (fuel : nat) (command : list ascii) (s : state) : result :=
  if has_char command "[" then
    let block_state := is_open_block command in
    if block_state =? OPENED_BLOCK then
      match read_block fuel command s with
      | None => Timeout
      | Some (None, _) => Undefined
      | Some (Some command', s') => parse_block fuel command' s'
      end
    else if block_state =? INVALID_BLOCK
    then Done (printf unbalanced_blocks_message s)
    else parse_block fuel command s
  else parse_command command s.

(** One turn of the loop of [main]. *)
Definition main_iteration (fuel : nat) (s : state) : result :=
  match read_command fuel (printf prompt s) with
  | None => Timeout
  | Some (command, s') => execute_line fuel command s'
  end.

(** ** Bracket-free text and repetition, for the statements about execution *)

(** A flat segment: no bracket of either kind. *)
Definition flat (text : list ascii) : Prop :=
  Forall (λ c, c ≠ "[" ∧ c ≠ "]") text.

(** [n] runs of [body] in a row, each entered on a cell that is not zero;
    [None] when one of them is entered on a zero cell or does not return. *)
Fixpoint repeat_body (n : nat) (body : state → result) (s : state)
    : option state :=
  match n with
  | O => Some s
  | S n =>
      match load s with
      | Some v =>
          if v =? 0 then None
          else match body s with
               | Done s' => repeat_body n body s'
               | _ => None
               end
      | None => None
      end
  end.

(** Two states with the same tape, cursor and unread input. *)
Definition same_tape (s1 s2 : state) : Prop :=
  memory s1 = memory s2 ∧ current_cell s1 = current_cell s2 ∧
  stdin s1 = stdin s2.

(** Two runs, from [s1] to [a] and from [s2] to [b], that end on the same
    tape and have printed the same text. *)
Definition same_run (s1 s2 a b : state) : Prop :=
  same_tape a b ∧
  ∃ out : list ascii, stdout a = stdout s1 ++ out ∧ stdout b = stdout s2 ++ out.

Definition same_flow (s1 s2 : state) (f1 f2 : flow) : Prop :=
  match f1, f2 with
  | Next a, Next b => same_run s1 s2 a b
  | Return a, Return b => same_run s1 s2 a b
  | Fault, Fault => True
  | _, _ => False
  end.

(** ** Vocabulary for the properties of the whole program *)

(** The six characters [parse_command] has a case for. *)
Definition is_instruction (c : ascii) : bool :=
  Ascii.eqb c "+" || Ascii.eqb c "-" || Ascii.eqb c ">" || Ascii.eqb c "<" ||
  Ascii.eqb c "." || Ascii.eqb c ",".

(** The tape as the program declares it: [MEMORY_SIZE] cells of type
    [char]. *)
Definition tape_shape (s : state) : Prop :=
  length (memory s) = Z.to_nat MEMORY_SIZE ∧
  Forall (λ v, -128 <= v <= 127) (memory s).

(** The cursor is on a tape of [MEMORY_SIZE] cells. *)
Definition on_tape (s : state) : Prop :=
  length (memory s) = Z.to_nat MEMORY_SIZE ∧ 0 <= current_cell s < MEMORY_SIZE.

(** From [s] to [s'] the output was only appended to and the input only
    read from its front. *)
Definition streams_advance (s s' : state) : Prop :=
  (∃ out : list ascii, stdout s' = stdout s ++ out) ∧
  (∃ n : nat, stdin s' = drop n (stdin s)).

(** [n] continuation lines read one after the other, each after the
    continuation prompt was printed: the lines put end to end, and the state
    after the last of them. *)
Fixpoint read_lines (n : nat) (s : state) : list ascii * state :=
  match n with
  | O => ([], s)
  | S n =>
      let '(line, s1) := get_user_input (printf continuation_prompt s) in
      let '(more, s2) := read_lines n s1 in
      (line ++ more, s2)
  end.

(** A line as [get_user_input] can return it whole: no line feed, no byte
    that converts to the [char] -1, no NUL. *)
Definition plain_line (line : list ascii) : Prop :=
  Forall (λ c, c ≠ LF ∧ c ≠ "255" ∧ c ≠ zero) line.

Section BracketCounts.

Lemma net_nil : net [] = 0.
Proof. reflexivity. Qed.

Lemma net_open (l : list ascii) : net ("[" :: l) = 1 + net l.
Proof. unfold net; cbn [count_char Ascii.eqb Bool.eqb andb]; lia. Qed.

Lemma net_close (l : list ascii) : net ("]" :: l) = net l - 1.
Proof. unfold net; cbn [count_char Ascii.eqb Bool.eqb andb]; lia. Qed.

Lemma net_other (c : ascii) (l : list ascii) :
  c ≠ "[" → c ≠ "]" → net (c :: l) = net l.
Proof.
  intros Ho Hc. unfold net; cbn [count_char].
  destruct (Ascii.eqb_spec c "["); [done|].
  destruct (Ascii.eqb_spec c "]"); [done|]. lia.
Qed.

Lemma net_app (l1 l2 : list ascii) : net (l1 ++ l2) = net l1 + net l2.
Proof.
  induction l1 as [|c l1 IH]; [rewrite net_nil; simpl; lia|].
  rewrite <- app_comm_cons.
  destruct (Ascii.eqb_spec c "[") as [->|Ho].
  { rewrite !net_open; lia. }
  destruct (Ascii.eqb_spec c "]") as [->|Hc].
  { rewrite !net_close; lia. }
  rewrite !net_other by done. done.
Qed.

End BracketCounts.

(** Case analysis on a command character, as the scans branch on it. *)
Ltac bracket_cases c :=
  let Ho := fresh "Hopen" in
  let Hc := fresh "Hclose" in
  destruct (Ascii.eqb_spec c "[") as [->|Ho];
  [ rewrite ?net_open in *
  | destruct (Ascii.eqb_spec c "]") as [->|Hc];
    [ rewrite ?net_close in *
    | rewrite ?(net_other c) in * by assumption ] ].

Section IsOpenBlock.

(** A dip below zero makes the scan answer [INVALID_BLOCK]. *)
Lemma is_open_block_from_dip (l : list ascii) :
  ∀ balance : Z, 0 <= balance →
    (∃ k : nat, balance + net (take k l) < 0) →
    is_open_block_from balance l = INVALID_BLOCK.
Proof.
  induction l as [|c l IH]; intros balance Hb [k Hk].
  - rewrite take_nil, net_nil in Hk. lia.
  - destruct k as [|k]; [rewrite take_0, net_nil in Hk; lia|].
    rewrite firstn_cons in Hk. cbn [is_open_block_from].
    bracket_cases c.
    + apply IH; [lia|]. exists k. lia.
    + cbn zeta. destruct (Z.ltb_spec (balance - 1) 0) as [|Hge]; [done|].
      apply IH; [lia|]. exists k. lia.
    + apply IH; [lia|]. exists k. lia.
Qed.

(** Without a dip the answer is decided by the final counter. *)
Lemma is_open_block_from_final (l : list ascii) :
  ∀ balance : Z, 0 <= balance →
    (∀ k : nat, 0 <= balance + net (take k l)) →
    is_open_block_from balance l =
      if 0 <? balance + net l then OPENED_BLOCK else CLOSED_BLOCK.
Proof.
  induction l as [|c l IH]; intros balance Hb Hall.
  - cbn [is_open_block_from]. rewrite net_nil, Z.add_0_r. done.
  - cbn [is_open_block_from].
    assert (Htail : ∀ k : nat, 0 <= balance + net (c :: take k l)).
    { intros k. specialize (Hall (S k)). by rewrite firstn_cons in Hall. }
    bracket_cases c.
    + replace (balance + (1 + net l)) with (balance + 1 + net l) by lia.
      apply IH; [lia|].
      intros k. specialize (Htail k). rewrite net_open in Htail. lia.
    + cbn zeta.
      assert (0 <= balance - 1).
      { specialize (Htail O). rewrite take_0, net_close, net_nil in Htail. lia. }
      destruct (Z.ltb_spec (balance - 1) 0); [lia|].
      replace (balance + (net l - 1)) with (balance - 1 + net l) by lia.
      apply IH; [lia|].
      intros k. specialize (Htail k). rewrite net_close in Htail. lia.
    + apply IH; [lia|].
      intros k. specialize (Htail k). by rewrite net_other in Htail.
Qed.

(** The answer [CLOSED_BLOCK] is given only without a dip and with a final
    counter of zero. *)
Lemma is_open_block_from_closed (l : list ascii) :
  ∀ balance : Z, 0 <= balance →
    is_open_block_from balance l = CLOSED_BLOCK →
    (∀ k : nat, 0 <= balance + net (take k l)) ∧ balance + net l = 0.
Proof.
  induction l as [|c l IH]; intros balance Hb Hres.
  - cbn [is_open_block_from] in Hres.
    destruct (Z.ltb_spec 0 balance); [done|].
    split; [intros k; rewrite take_nil, net_nil; lia | rewrite net_nil; lia].
  - cbn [is_open_block_from] in Hres.
    assert (Hstep : ∀ b' d, 0 <= b' → balance + d = b' →
              (∀ l', net (c :: l') = d + net l') →
              is_open_block_from b' l = CLOSED_BLOCK →
              (∀ k : nat, 0 <= balance + net (take k (c :: l))) ∧
              balance + net (c :: l) = 0).
    { intros b' d Hb' Hd Hnet Hrec.
      destruct (IH b' Hb' Hrec) as [Hall Hend]. split.
      - intros [|k]; [rewrite take_0, net_nil; lia|].
        rewrite firstn_cons, Hnet. specialize (Hall k). lia.
      - rewrite Hnet. lia. }
    destruct (Ascii.eqb_spec c "[") as [->|Ho].
    { apply (Hstep (balance + 1) 1); [lia|lia|apply net_open|done]. }
    destruct (Ascii.eqb_spec c "]") as [->|Hc].
    { cbn zeta in Hres. destruct (Z.ltb_spec (balance - 1) 0); [done|].
      apply (Hstep (balance - 1) (-1)); [lia|lia| |done].
      intros l'. rewrite net_close. lia. }
    apply (Hstep balance 0); [lia|lia| |done].
    intros l'. rewrite net_other by done. lia.
Qed.

Lemma is_open_block_closed (text : list ascii) :
  is_open_block text = CLOSED_BLOCK → never_negative text ∧ net text = 0.
Proof.
  intros H. apply is_open_block_from_closed in H as [Hall Hend]; [|lia].
  split; [intros k; specialize (Hall k); lia | lia].
Qed.

End IsOpenBlock.

(** C4. [is_open_block] scans with a nesting counter: a text whose counter
    goes negative on some prefix is [INVALID_BLOCK] whatever follows that
    prefix; a text whose counter never goes negative is [CLOSED_BLOCK] when
    the counter ends at zero and [OPENED_BLOCK] when it ends positive. *)
Theorem is_open_block_classifies (text rest : list ascii) :
  ((∃ k : nat, net (take k text) < 0) →
     is_open_block (text ++ rest) = INVALID_BLOCK) ∧
  (never_negative text → net text = 0 → is_open_block text = CLOSED_BLOCK) ∧
  (never_negative text → 0 < net text → is_open_block text = OPENED_BLOCK).
Proof.
  unfold is_open_block, never_negative. repeat split.
  - intros [k Hk]. apply is_open_block_from_dip; [lia|].
    exists (k `min` length text)%nat.
    rewrite take_app_le by lia.
    destruct (Nat.le_gt_cases k (length text)).
    + by rewrite Nat.min_l.
    + rewrite Nat.min_r, firstn_all by lia.
      rewrite take_ge in Hk by lia. lia.
  - intros Hnn Hz. rewrite is_open_block_from_final; [|lia|intros k; specialize (Hnn k); lia].
    destruct (Z.ltb_spec 0 (0 + net text)); [lia|done].
  - intros Hnn Hz. rewrite is_open_block_from_final; [|lia|intros k; specialize (Hnn k); lia].
    destruct (Z.ltb_spec 0 (0 + net text)); [done|lia].
Qed.

Section FindClosing.

Lemma flat_cons (c : ascii) (l : list ascii) :
  flat (c :: l) ↔ c ≠ "[" ∧ c ≠ "]" ∧ flat l.
Proof. unfold flat. rewrite Forall_cons. tauto. Qed.

Lemma net_flat (l : list ascii) : flat l → net l = 0.
Proof.
  induction l as [|c l IH]; [done|].
  rewrite flat_cons. intros (Ho & Hc & Hl).
  rewrite net_other by done. auto.
Qed.

Lemma flat_take (k : nat) (l : list ascii) : flat l → flat (take k l).
Proof. apply Forall_take. Qed.

Lemma strchr_flat (l : list ascii) : flat l → strchr l "[" = None.
Proof.
  induction l as [|c l IH]; [done|].
  rewrite flat_cons. intros (Ho & Hc & Hl). cbn [strchr].
  destruct (Ascii.eqb_spec c "["); [done|]. by rewrite IH.
Qed.

(** The first ["["] splits the text. *)
Lemma strchr_split (l : list ascii) (c : ascii) (b : nat) :
  strchr l c = Some b →
  ∃ pre rest, l = pre ++ c :: rest ∧ length pre = b ∧ strchr pre c = None.
Proof.
  revert b. induction l as [|x l IH]; intros b Hb; [done|].
  cbn [strchr] in Hb. destruct (Ascii.eqb_spec x c) as [->|Hx].
  - injection Hb as <-. by exists [], l.
  - destruct (strchr l c) as [b'|] eqn:Hl; [|done].
    injection Hb as <-.
    destruct (IH b' eq_refl) as (pre & rest & -> & <- & Hpre).
    exists (x :: pre), rest. split_and!; [done..|].
    cbn [strchr]. destruct (Ascii.eqb_spec x c); [done|]. by rewrite Hpre.
Qed.

Lemma strchr_app_flat (pre rest : list ascii) :
  flat pre → strchr (pre ++ "[" :: rest) "[" = Some (length pre).
Proof.
  induction pre as [|c pre IH]; [done|].
  rewrite flat_cons. intros (Ho & Hc & Hl).
  rewrite <- app_comm_cons. cbn [strchr length].
  destruct (Ascii.eqb_spec c "["); [done|]. by rewrite IH.
Qed.

(** Before the first ["["] of a text without a dip there is no bracket. *)
Lemma never_negative_flat_prefix (pre rest : list ascii) :
  never_negative (pre ++ rest) → strchr pre "[" = None → flat pre.
Proof.
  induction pre as [|c pre IH]; intros Hnn Hpre; [by constructor|].
  cbn [strchr] in Hpre. destruct (Ascii.eqb_spec c "[") as [|Ho]; [done|].
  destruct (strchr pre "[") eqn:Hs; [done|].
  destruct (Ascii.eqb_spec c "]") as [->|Hc].
  { specialize (Hnn 1%nat). rewrite <- app_comm_cons, firstn_cons in Hnn.
    rewrite take_0, net_close, net_nil in Hnn. lia. }
  apply flat_cons. repeat split; [done..|].
  apply IH; [|done]. intros k. specialize (Hnn (S k)).
  rewrite <- app_comm_cons, firstn_cons, net_other in Hnn; done.
Qed.

(** The scan passes over a flat prefix without touching the counter. *)
Lemma find_closing_from_flat (pre rest : list ascii) :
  ∀ i balance : Z, flat pre →
    find_closing_from i balance (pre ++ rest) =
    find_closing_from (i + Z.of_nat (length pre)) balance rest.
Proof.
  induction pre as [|c pre IH]; intros i balance Hflat.
  - cbn [app length]. f_equal. lia.
  - apply flat_cons in Hflat as (Ho & Hc & Hl).
    rewrite <- app_comm_cons. cbn [find_closing_from length].
    destruct (Ascii.eqb_spec c "["); [done|].
    destruct (Ascii.eqb_spec c "]"); [done|].
    rewrite IH by done. f_equal. lia.
Qed.

(** What the scan returns, for any start: [INVALID_BLOCK] when no ["]"]
    brings the counter to zero, else the first ["]"] that does. *)
Lemma find_closing_from_first (l : list ascii) :
  ∀ i balance : Z,
    (find_closing_from i balance l = INVALID_BLOCK ∧
     ∀ e : nat, l !! e = Some "]" → balance + net (take (S e) l) ≠ 0) ∨
    (∃ e : nat,
       find_closing_from i balance l = i + Z.of_nat e ∧
       l !! e = Some "]" ∧ balance + net (take (S e) l) = 0 ∧
       ∀ e' : nat, (e' < e)%nat → l !! e' = Some "]" →
                   balance + net (take (S e') l) ≠ 0).
Proof.
  induction l as [|c l IH]; intros i balance.
  { left. split; [done|]. intros e He. done. }
  assert (Hstep : ∀ b' d, balance + d = b' →
            (∀ l', net (c :: l') = d + net l') →
            (d = -1 → b' ≠ 0) → (c = "]" ↔ d = -1) →
            find_closing_from i balance (c :: l) =
              find_closing_from (i + 1) b' l →
            (find_closing_from i balance (c :: l) = INVALID_BLOCK ∧
             ∀ e : nat, (c :: l) !! e = Some "]" →
                        balance + net (take (S e) (c :: l)) ≠ 0) ∨
            (∃ e : nat,
               find_closing_from i balance (c :: l) = i + Z.of_nat e ∧
               (c :: l) !! e = Some "]" ∧
               balance + net (take (S e) (c :: l)) = 0 ∧
               ∀ e' : nat, (e' < e)%nat → (c :: l) !! e' = Some "]" →
                           balance + net (take (S e') (c :: l)) ≠ 0)).
  { intros b' d Hd Hnet Hnz Hcd Heq. rewrite Heq.
    assert (Hhead : ∀ e, (c :: l) !! e = Some "]" → e = O →
              balance + net (take (S e) (c :: l)) ≠ 0).
    { intros e He ->. cbn in He. injection He as ->.
      rewrite firstn_cons, take_0, Hnet, net_nil.
      assert (d = -1) by by apply Hcd. lia. }
    destruct (IH (i + 1) b') as [[Hres Hno]|(e & Hres & He & Hz & Hfirst)].
    - left. split; [done|]. intros [|e] He; [by apply Hhead|].
      rewrite firstn_cons, Hnet. specialize (Hno e He). lia.
    - right. exists (S e). repeat split.
      + rewrite Hres. lia.
      + done.
      + rewrite firstn_cons, Hnet. lia.
      + intros [|e'] Hlt He'; [by apply Hhead|].
        rewrite firstn_cons, Hnet.
        assert (b' + net (take (S e') l) ≠ 0) by (apply Hfirst; [lia|done]).
        lia. }
  destruct (Ascii.eqb_spec c "[") as [->|Ho].
  { apply (Hstep (balance + 1) 1); [lia|apply net_open|lia|done|done]. }
  destruct (Ascii.eqb_spec c "]") as [->|Hc].
  { destruct (decide (balance - 1 = 0)) as [Hz|Hnz].
    - right. exists O. cbn [find_closing_from Ascii.eqb Bool.eqb andb].
      cbn zeta. rewrite (proj2 (Z.eqb_eq _ _) Hz). split_and!.
      + lia.
      + done.
      + rewrite firstn_cons, take_0, net_close, net_nil. lia.
      + intros e' He'. lia.
    - apply (Hstep (balance - 1) (-1)); [lia| |done|done|].
      + intros l'. rewrite net_close. lia.
      + cbn [find_closing_from Ascii.eqb Bool.eqb andb]. cbn zeta.
        by rewrite (proj2 (Z.eqb_neq _ _) Hnz). }
  apply (Hstep balance 0); [lia| |lia| |].
  - intros l'. rewrite net_other by done. lia.
  - split; [done|lia].
  - cbn [find_closing_from].
    destruct (Ascii.eqb_spec c "["); [done|].
    destruct (Ascii.eqb_spec c "]"); [done|]. done.
Qed.

Lemma net_take_S (l : list ascii) (k : nat) (c : ascii) :
  l !! k = Some c → net (take (S k) l) = net (take k l) + net [c].
Proof. intros Hk. by rewrite (take_S_r _ _ _ Hk), net_app. Qed.

(** From a counter of at least one, the scan stays at one or more until a
    ["]"] brings it to zero. *)
Lemma counter_stays_positive (l : list ascii) (balance : Z) (n : nat) :
  1 <= balance →
  (∀ e : nat, (e < n)%nat → l !! e = Some "]" →
              balance + net (take (S e) l) ≠ 0) →
  ∀ k : nat, (k <= n)%nat → 1 <= balance + net (take k l).
Proof.
  intros Hb Hno k. induction k as [|k IH]; intros Hk.
  { rewrite take_0, net_nil. lia. }
  assert (1 <= balance + net (take k l)) as Hprev by (apply IH; lia).
  destruct (l !! k) as [c|] eqn:Hc.
  - rewrite (net_take_S _ _ _ Hc).
    destruct (Ascii.eqb_spec c "[") as [->|Ho]; [rewrite net_open, net_nil; lia|].
    destruct (Ascii.eqb_spec c "]") as [->|Hcl].
    + assert (balance + net (take (S k) l) ≠ 0) as Hne by (apply Hno; [lia|done]).
      rewrite (net_take_S _ _ _ Hc), net_close, net_nil in Hne.
      rewrite net_close, net_nil. lia.
    + rewrite net_other, net_nil by done. lia.
  - apply lookup_ge_None in Hc.
    rewrite take_ge by lia. rewrite take_ge in Hprev by lia. done.
Qed.

(** The scan entered inside a block finds the ["]"] that closes it. *)
Lemma find_closing_from_match (l : list ascii) (i balance : Z) :
  1 <= balance →
  (∃ k : nat, balance + net (take k l) <= 0) →
  ∃ e : nat,
    find_closing_from i balance l = i + Z.of_nat e ∧
    l !! e = Some "]" ∧ balance + net (take (S e) l) = 0 ∧
    ∀ k : nat, (k <= e)%nat → 1 <= balance + net (take k l).
Proof.
  intros Hb [k Hk].
  destruct (find_closing_from_first l i balance)
    as [[_ Hno]|(e & Hres & He & Hz & Hfirst)].
  - pose proof (counter_stays_positive l balance k Hb) as Hpos.
    assert (1 <= balance + net (take k l)); [|lia].
    apply Hpos; [|done]. intros e _ He. by apply Hno.
  - exists e. split_and!; [done..|].
    by apply counter_stays_positive.
Qed.

(** The two indices [parse_block] computes on a text made of a flat
    prefix, a block with a balanced body, and a rest. *)
Lemma block_indices (pre body rest : list ascii) :
  flat pre → never_negative body → net body = 0 →
  strchr (pre ++ "[" :: body ++ "]" :: rest) "[" = Some (length pre) ∧
  find_closing (pre ++ "[" :: body ++ "]" :: rest) =
    Z.of_nat (length pre + 1 + length body).
Proof.
  intros Hpre Hnn Hnet. split; [by apply strchr_app_flat|].
  unfold find_closing. rewrite find_closing_from_flat by done.
  cbn [find_closing_from Ascii.eqb Bool.eqb andb].
  destruct (find_closing_from_match (body ++ "]" :: rest)
              (0 + Z.of_nat (length pre) + 1) (0 + 1))
    as (e & -> & He & Hz & Hpos); [lia| |].
  { exists (S (length body)).
    rewrite (take_S_r _ _ "]"), take_app_length, net_app, net_close, net_nil.
    - lia.
    - by rewrite list_lookup_middle. }
  assert (e = length body) as ->; [|lia].
  destruct (Nat.lt_trichotomy e (length body)) as [Hlt|[->|Hgt]]; [|done|].
  - rewrite take_app_le in Hz by lia. specialize (Hnn (S e)). lia.
  - specialize (Hpos (S (length body)) ltac:(lia)).
    rewrite (take_S_r _ _ "]"), take_app_length, net_app, net_close, net_nil in Hpos.
    + lia.
    + by rewrite list_lookup_middle.
Qed.

End FindClosing.

(** C5. On a text that [is_open_block] answers [CLOSED_BLOCK] for and whose
    first ["["] is at index [b], [find_closing] returns the index [e] of a
    ["]"] after [b] such that the span from [b] through [e] has as many
    openers as closers while none of its proper prefixes (the empty one
    apart) has; and on any text it answers [INVALID_BLOCK] exactly when no
    ["]"] brings the counter back to zero. *)
Theorem find_closing_matches_first_open (command : list ascii) (b : nat) :
  is_open_block command = CLOSED_BLOCK →
  strchr command "[" = Some b →
  (∃ e : nat,
     find_closing command = Z.of_nat e ∧
     command !! b = Some "[" ∧ command !! e = Some "]" ∧ (b < e)%nat ∧
     let span := take (e - b + 1) (drop b command) in
     count_char "[" span = count_char "]" span ∧
     ∀ k : nat, (0 < k < length span)%nat →
       count_char "[" (take k span) ≠ count_char "]" (take k span)) ∧
  (∀ text : list ascii,
     find_closing text = INVALID_BLOCK ↔
     ¬ ∃ e : nat, text !! e = Some "]" ∧ net (take (S e) text) = 0).
Proof.
  intros Hclosed Hb. split.
  - apply is_open_block_closed in Hclosed as [Hnn Hnet].
    apply strchr_split in Hb as (pre & l & -> & <- & Hpre).
    pose proof (never_negative_flat_prefix pre ("[" :: l) Hnn Hpre) as Hflat.
    rewrite net_app, net_open, (net_flat pre) in Hnet by done.
    destruct (find_closing_from_match l (0 + Z.of_nat (length pre) + 1) (0 + 1))
      as (j & Hres & Hj & Hz & Hpos); [lia|exists (length l)|].
    { rewrite firstn_all. lia. }
    exists (length pre + 1 + j)%nat.
    assert (Hlen : (S j <= length l)%nat) by (apply lookup_lt_Some in Hj; lia).
    split_and!.
    + unfold find_closing. rewrite find_closing_from_flat by done.
      cbn [find_closing_from Ascii.eqb Bool.eqb andb]. rewrite Hres. lia.
    + by rewrite list_lookup_middle.
    + rewrite lookup_app_r by lia.
      replace (length pre + 1 + j - length pre)%nat with (S j) by lia. done.
    + lia.
    + cbn zeta. rewrite drop_app_length.
      replace (length pre + 1 + j - length pre + 1)%nat with (S (S j)) by lia.
      rewrite firstn_cons.
      assert (Hspan : net ("[" :: take (S j) l) = 0) by (rewrite net_open; lia).
      split; [unfold net in Hspan; lia|].
      intros [|k] Hk; [lia|].
      cbn [length] in Hk. rewrite length_take in Hk.
      rewrite firstn_cons, take_take.
      replace (k `min` S j)%nat with k by lia.
      specialize (Hpos k ltac:(lia)).
      assert (Hk1 : net ("[" :: take k l) ≠ 0) by (rewrite net_open; lia).
      unfold net in Hk1. lia.
  - intros text. unfold find_closing.
    destruct (find_closing_from_first text 0 0)
      as [[Hres Hno]|(e & Hres & He & Hz & _)].
    + split; [|done]. intros _ (e & He & Hz). by apply (Hno e).
    + split.
      * rewrite Hres. unfold INVALID_BLOCK. lia.
      * intros Hnone. exfalso. apply Hnone. exists e. split; [done|lia].
Qed.

(** An instance, ["+[>[-]<]-"], whose first block spans indices 1 to 7. *)
Lemma find_closing_matches_first_open_witness :
  find_closing (cstr "+[>[-]<]-") = 7 ∧
  count_char "[" (cstr "[>[-]<]") = count_char "]" (cstr "[>[-]<]").
Proof.
  destruct (find_closing_matches_first_open (cstr "+[>[-]<]-") 1
              ltac:(reflexivity) ltac:(reflexivity))
    as [(e & He & _ & _ & _ & Hspan & _) _].
  assert (Hv : find_closing (cstr "+[>[-]<]-") = 7) by reflexivity.
  assert (e = 7%nat) as -> by lia.
  split; [exact He | exact Hspan].
Defined.

(** Instances: ["]["], ["[]"] and ["[["]. *)
Lemma is_open_block_classifies_witness :
  is_open_block (cstr "]" ++ cstr "[") = INVALID_BLOCK ∧
  is_open_block (cstr "[]") = CLOSED_BLOCK ∧
  is_open_block (cstr "[[") = OPENED_BLOCK.
Proof.
  split_and!.
  - apply (proj1 (is_open_block_classifies (cstr "]") (cstr "["))).
    exists 1%nat. vm_compute. done.
  - apply (proj1 (proj2 (is_open_block_classifies (cstr "[]") []))).
    + intros [|[|[|k]]]; vm_compute; discriminate.
    + reflexivity.
  - apply (proj2 (proj2 (is_open_block_classifies (cstr "[[") []))).
    + intros [|[|[|k]]]; vm_compute; discriminate.
    + reflexivity.
Defined.

Section Cells.

Lemma to_char_range (z : Z) : -128 <= to_char z <= 127.
Proof. unfold to_char. pose proof (Z.mod_pos_bound (z + 128) 256). lia. Qed.

(** Conversion to [char] keeps the value modulo 256. *)
Lemma to_char_mod (z : Z) : to_char z mod 256 = z mod 256.
Proof.
  unfold to_char.
  replace ((z + 128) mod 256 - 128) with ((z + 128) mod 256 + (-128)) by lia.
  rewrite Zplus_mod_idemp_l. f_equal. lia.
Qed.

Lemma to_char_id (z : Z) : -128 <= z <= 127 → to_char z = z.
Proof. intros Hz. unfold to_char. rewrite Z.mod_small; lia. Qed.


Lemma getchar_tape (s : state) :
  memory (getchar s).2 = memory s ∧
  current_cell (getchar s).2 = current_cell s ∧
  stdout (getchar s).2 = stdout s.
Proof. unfold getchar. by destruct (stdin s). Qed.

(** On a byte or [EOF], conversion to [char] gives a line feed only for a
    line feed. *)
Lemma to_char_line_feed (ch : Z) :
  -1 <= ch <= 255 → to_char ch = 10 ↔ ch = 10.
Proof.
  intros Hch. unfold to_char. split; [|by intros ->].
  intros H. destruct (Z.lt_ge_cases ch 128).
  - rewrite Z.mod_small in H; lia.
  - replace (ch + 128) with (ch - 128 + 1 * 256) in H by lia.
    rewrite Z_mod_plus_full, Z.mod_small in H; lia.
Qed.

(** A cell that can be read can be written, and reads back what was
    written. *)
Lemma store_loaded (w : Z) (s : state) (v : Z) :
  load s = Some v →
  store w s =
    Some (set_memory (<[Z.to_nat (current_cell s) := w]> (memory s)) s) ∧
  load (set_memory (<[Z.to_nat (current_cell s) := w]> (memory s)) s) =
    Some w.
Proof.
  unfold load, store. destruct (current_cell s <? 0) eqn:Hneg; [done|].
  intros Hv. apply lookup_lt_Some in Hv as Hlt.
  destruct (Nat.ltb_spec (Z.to_nat (current_cell s)) (length (memory s)));
    [|lia].
  split; [done|]. cbn. rewrite Hneg. by apply list_lookup_insert_eq.
Qed.

End Cells.

(** C8. On a cell that the cursor points to, ["+"] and ["-"] go on without
    a message and without moving the cursor, and leave in the cell its old
    value plus or minus one converted to [char]: equal to it modulo 256, so
    that the greatest value, 127, is followed by the least, -128, and the
    least preceded by the greatest. *)
Theorem increment_decrement_wrap (s : state) (v : Z) :
  load s = Some v →
  ∃ up down : state,
    dispatch "+" s = Next up ∧ dispatch "-" s = Next down ∧
    load up = Some (to_char (v + 1)) ∧ load down = Some (to_char (v - 1)) ∧
    to_char (v + 1) mod 256 = (v + 1) mod 256 ∧
    to_char (v - 1) mod 256 = (v - 1) mod 256 ∧
    (v = 127 → load up = Some (-128)) ∧ (v = -128 → load down = Some 127) ∧
    stdout up = stdout s ∧ stdout down = stdout s ∧
    current_cell up = current_cell s ∧ current_cell down = current_cell s.
Proof.
  intros Hv.
  destruct (store_loaded (to_char (v + 1)) s v Hv) as [Hup Hup'].
  destruct (store_loaded (to_char (v - 1)) s v Hv) as [Hdown Hdown'].
  eexists _, _. split_and!.
  - unfold dispatch. cbn [Ascii.eqb Bool.eqb andb]. rewrite Hv. cbn.
    rewrite Hup. done.
  - unfold dispatch. cbn [Ascii.eqb Bool.eqb andb]. rewrite Hv. cbn.
    rewrite Hdown. done.
  - done.
  - done.
  - apply to_char_mod.
  - apply to_char_mod.
  - intros ->. by rewrite Hup'.
  - intros ->. by rewrite Hdown'.
  - done.
  - done.
  - done.
  - done.
Qed.

(** An instance: the first cell of a tape that holds 127 there. *)
Lemma increment_decrement_wrap_witness :
  ∃ up : state,
    dispatch "+" (mkState [127; 0] 0 [] []) = Next up ∧ load up = Some (-128).
Proof.
  destruct (increment_decrement_wrap (mkState [127; 0] 0 [] []) 127
              ltac:(reflexivity))
    as (up & down & Hup & _ & _ & _ & _ & _ & Hmax & _).
  exists up. split; [exact Hup | exact (Hmax eq_refl)].
Defined.





Section Cursor.

Lemma store_cursor (w : Z) (s s' : state) :
  store w s = Some s' → current_cell s' = current_cell s.
Proof.
  unfold store. destruct (current_cell s <? 0); [done|].
  destruct (_ <? _)%nat; [|done]. by intros [= <-].
Qed.

(** The guard of [">"] lets the cursor through while it is below
    [MEMORY_SIZE], the guard of ["<"] while it is above zero: the range the
    cursor keeps is [0, MEMORY_SIZE], both ends included. *)
Lemma dispatch_cursor_range (c : ascii) (s : state) :
  0 <= current_cell s <= MEMORY_SIZE →
  match dispatch c s with
  | Next s' | Return s' => 0 <= current_cell s' <= MEMORY_SIZE
  | Fault => True
  end.
Proof.
  intros Hs. unfold dispatch.
  repeat match goal with
         | |- context [Ascii.eqb c ?x] => destruct (Ascii.eqb c x)
         end.
  - destruct (load s) as [v|]; [|done]. cbn.
    destruct (store _ s) as [s'|] eqn:Hst; [|done].
    cbn. by rewrite (store_cursor _ _ _ Hst).
  - destruct (load s) as [v|]; [|done]. cbn.
    destruct (store _ s) as [s'|] eqn:Hst; [|done].
    cbn. by rewrite (store_cursor _ _ _ Hst).
  - destruct (Z.ltb_spec 0 (MEMORY_SIZE - current_cell s)); cbn; lia.
  - destruct (Z.ltb_spec 0 (current_cell s)); cbn; lia.
  - by destruct (load s).
  - pose proof (getchar_tape s) as (_ & Hcur & _).
    destruct (getchar s) as [ch s1]. cbn [snd] in Hcur.
    destruct (store _ s1) as [s2|] eqn:Hst; [|done]. cbn.
    apply store_cursor in Hst.
    destruct (load s2) as [v|]; [|done]. cbn.
    destruct (v =? 10); [|cbn; lia].
    destruct (store 0 s2) as [s3|] eqn:Hst0; [|done].
    apply store_cursor in Hst0. cbn. lia.
  - done.
Qed.

Lemma parse_command_loop_cursor_range (command : list ascii) :
  ∀ s : state, 0 <= current_cell s <= MEMORY_SIZE →
    match parse_command_loop command s with
    | Next s' | Return s' => 0 <= current_cell s' <= MEMORY_SIZE
    | Fault => True
    end.
Proof.
  induction command as [|c command IH]; intros s Hs; [done|].
  cbn [parse_command_loop].
  pose proof (dispatch_cursor_range c s Hs) as Hc.
  destruct (dispatch c s); [by apply IH|done|done].
Qed.

End Cursor.

(** C1. From the state at process start, whatever the input: 255 times [">"]
    bring the cursor to the last index; one more [">"] there goes on without
    a message and brings the cursor to [MEMORY_SIZE], outside the tape; a
    ["+"] after that is an access outside [memory]; only the following [">"]
    prints the message; ["<"] at index 0 prints its message and leaves the
    cursor at 0. *)
Theorem move_right_at_last_index_leaves_tape (input : list ascii) :
  let last := set_current_cell (MEMORY_SIZE - 1) (initial_state input) in
  let past := set_current_cell MEMORY_SIZE (initial_state input) in
  parse_command (replicate 255 ">") (initial_state input) = Done last ∧
  dispatch ">" last = Next past ∧
  parse_command (replicate 256 ">") (initial_state input) = Done past ∧
  parse_command (replicate 256 ">" ++ cstr "+") (initial_state input) =
    Undefined ∧
  dispatch ">" past = Return (printf end_of_memory_message past) ∧
  dispatch "<" (initial_state input) =
    Return (printf begining_of_memory_message (initial_state input)).
Proof. cbn zeta. split_and!; vm_compute; reflexivity. Qed.

(** C2. [is_open_block] answers [INVALID_BLOCK] for ["]"] and for ["+]"],
    yet [main] never asks it about a line without ["["]: such a line goes to
    [parse_command], which skips the ["]"], prints nothing and runs the rest,
    so that ["+]"] changes the first cell. With a ["["] in the line the
    message is printed and the line dropped; when the closing bracket too
    many comes on a continuation line, [read_block] prints its message and
    [main] passes the null pointer on to [parse_block]. *)
Theorem main_skips_unmatched_closing_bracket (fuel : nat) (s : state) :
  is_open_block (cstr "]") = INVALID_BLOCK ∧
  is_open_block (cstr "+]") = INVALID_BLOCK ∧
  execute_line fuel (cstr "]") s = Done s ∧
  main_iteration 1 (initial_state (cstr "]" ++ [LF])) =
    Done (printf prompt (initial_state [])) ∧
  main_iteration 1 (initial_state (cstr "+]" ++ [LF])) =
    Done (set_memory (<[0%nat := 1]> (memory (initial_state [])))
            (printf prompt (initial_state []))) ∧
  execute_line fuel (cstr "][") s = Done (printf unbalanced_blocks_message s) ∧
  main_iteration (S (S fuel)) (initial_state (cstr "[" ++ [LF] ++ cstr "]]" ++ [LF])) =
    Undefined.
Proof. split_and!; try reflexivity. Qed.

Section OutputIndependence.

Lemma same_run_start (s1 s2 : state) : same_tape s1 s2 → same_run s1 s2 s1 s2.
Proof. intros H. split; [done|]. exists []. by rewrite !app_nil_r. Qed.

Lemma same_run_step (s1 s2 a b a' b' : state) :
  same_run s1 s2 a b → same_run a b a' b' → same_run s1 s2 a' b'.
Proof.
  intros [_ (o & Ha & Hb)] [Ht (o' & Ha' & Hb')]. split; [done|].
  exists (o ++ o'). rewrite Ha', Hb', Ha, Hb. by rewrite <- !app_assoc.
Qed.

Lemma load_same (a b : state) : same_tape a b → load a = load b.
Proof. intros (Hm & Hc & _). unfold load. by rewrite Hm, Hc. Qed.

Lemma store_same (w : Z) (a b : state) :
  same_tape a b →
  match store w a, store w b with
  | Some a', Some b' => same_run a b a' b'
  | None, None => True
  | _, _ => False
  end.
Proof.
  intros (Hm & Hc & Hi). unfold store. rewrite Hm, Hc.
  destruct (current_cell b <? 0); [done|].
  destruct (_ <? _)%nat; [|done].
  split; [by split_and!|]. exists []. by rewrite !app_nil_r.
Qed.

Lemma printf_same (text : list ascii) (a b : state) :
  same_tape a b → same_run a b (printf text a) (printf text b).
Proof. intros Ht. split; [done|]. by exists text. Qed.

Lemma set_current_cell_same (p : Z) (a b : state) :
  same_tape a b →
  same_run a b (set_current_cell p a) (set_current_cell p b).
Proof.
  intros (Hm & Hc & Hi). split; [by split_and!|].
  exists []. by rewrite !app_nil_r.
Qed.

Lemma getchar_same (a b : state) :
  same_tape a b →
  (getchar a).1 = (getchar b).1 ∧
  same_run a b (getchar a).2 (getchar b).2.
Proof.
  intros Ht. pose proof Ht as (Hm & Hc & Hi). unfold getchar. rewrite Hi.
  destruct (stdin b) as [|c rest]; cbn.
  - split; [done|]. by apply same_run_start.
  - split; [done|]. split; [by split_and!|].
    exists []. by rewrite !app_nil_r.
Qed.

(** One instruction does the same on the same tape, whatever was printed
    before. *)
Lemma dispatch_same (c : ascii) (a b : state) :
  same_tape a b → same_flow a b (dispatch c a) (dispatch c b).
Proof.
  intros Ht. pose proof Ht as (Hm & Hc & Hi). unfold dispatch.
  repeat match goal with
         | |- context [Ascii.eqb c ?x] => destruct (Ascii.eqb c x)
         end.
  - rewrite (load_same a b Ht). destruct (load b) as [v|]; [|done]. cbn.
    pose proof (store_same (to_char (v + 1)) a b Ht) as Hst.
    by destruct (store _ a), (store _ b).
  - rewrite (load_same a b Ht). destruct (load b) as [v|]; [|done]. cbn.
    pose proof (store_same (to_char (v - 1)) a b Ht) as Hst.
    by destruct (store _ a), (store _ b).
  - rewrite Hc. destruct (0 <? MEMORY_SIZE - current_cell b); cbn.
    + by apply set_current_cell_same.
    + by apply printf_same.
  - rewrite Hc. destruct (0 <? current_cell b); cbn.
    + by apply set_current_cell_same.
    + by apply printf_same.
  - rewrite (load_same a b Ht). destruct (load b) as [v|]; [|done]. cbn.
    by apply printf_same.
  - destruct (getchar_same a b Ht) as [Hch Hget].
    destruct (getchar a) as [ch a1], (getchar b) as [ch' b1].
    cbn [fst snd] in *. subst ch'.
    pose proof (store_same (to_char ch) a1 b1 (proj1 Hget)) as Hst.
    destruct (store _ a1) as [a2|], (store _ b1) as [b2|]; try done. cbn.
    rewrite (load_same a2 b2 (proj1 Hst)).
    destruct (load b2) as [v|]; [|done]. cbn.
    destruct (v =? 10).
    * pose proof (store_same 0 a2 b2 (proj1 Hst)) as Hst0.
      destruct (store 0 a2) as [a3|], (store 0 b2) as [b3|]; try done. cbn.
      eauto using same_run_step.
    * cbn. eauto using same_run_step.
  - by apply same_run_start.
Qed.

Lemma parse_command_loop_same (command : list ascii) :
  ∀ a b : state, same_tape a b →
    same_flow a b (parse_command_loop command a) (parse_command_loop command b).
Proof.
  induction command as [|c command IH]; intros a b Ht.
  { by apply same_run_start. }
  cbn [parse_command_loop].
  pose proof (dispatch_same c a b Ht) as Hc.
  destruct (dispatch c a) as [a'| |], (dispatch c b) as [b'| |]; try done.
  pose proof (IH a' b' (proj1 Hc)) as Hrest.
  destruct (parse_command_loop command a'), (parse_command_loop command b');
    try done; cbn in *; eauto using same_run_step.
Qed.

Lemma run_segment_flat (fuel : nat) (text : list ascii) (s : state) :
  flat text → run_segment fuel text s = parse_command text s.
Proof.
  intros Hflat. unfold run_segment, has_char. by rewrite strchr_flat.
Qed.

End OutputIndependence.

(** C9. Two executions of a bracket-free command from states with the same
    tape, cursor and unread input, whatever had been printed before each,
    come to the same: both return, on the same tape, cursor and unread
    input and after printing the same text, or both are undefined. *)
Theorem flat_command_depends_on_tape_only
    (fuel : nat) (command : list ascii) (s1 s2 : state) :
  flat command → same_tape s1 s2 →
  match run_segment fuel command s1, run_segment fuel command s2 with
  | Done a, Done b =>
      memory a = memory b ∧ current_cell a = current_cell b ∧
      stdin a = stdin b ∧
      ∃ out : list ascii,
        stdout a = stdout s1 ++ out ∧ stdout b = stdout s2 ++ out
  | Undefined, Undefined => True
  | _, _ => False
  end.
Proof.
  intros Hflat Ht. rewrite !run_segment_flat by done. unfold parse_command.
  pose proof (parse_command_loop_same command s1 s2 Ht) as H.
  destruct (parse_command_loop command s1), (parse_command_loop command s2);
    try done; destruct H as [(? & ? & ?) ?]; by split_and!.
Qed.

(** An instance: [",+>."] run on a fresh tape, and run again on a fresh tape
    after something was printed. *)
Lemma flat_command_depends_on_tape_only_witness :
  match run_segment 0 (cstr ",+>.") (initial_state (cstr "A")),
        run_segment 0 (cstr ",+>.") (printf (cstr "B") (initial_state (cstr "A")))
  with
  | Done a, Done b => memory a = memory b ∧ current_cell a = current_cell b
  | _, _ => False
  end.
Proof.
  pose proof (flat_command_depends_on_tape_only 0 (cstr ",+>.")
                (initial_state (cstr "A"))
                (printf (cstr "B") (initial_state (cstr "A")))) as H.
  assert (Hflat : flat (cstr ",+>.")).
  { repeat constructor; discriminate. }
  specialize (H Hflat ltac:(repeat split)).
  vm_compute in H. vm_compute.
  destruct H as (Hm & Hc & _). split; [exact Hm | exact Hc].
Defined.

Section BlockExecution.

(** [parse_block] past its test for the empty text. *)
Lemma parse_block_unfold (fuel : nat) (command : list ascii) (s : state) :
  command ≠ [] →
  parse_block (S fuel) command s =
    match strchr command "[" with
    | None => Undefined
    | Some start_block_index =>
        let closing := find_closing command in
        if closing =? INVALID_BLOCK then Undefined
        else
          let end_block_index := Z.to_nat closing in
          let* s1 :=
            if (start_block_index =? 0)%nat then Done s
            else parse_command (strncpy command 0 start_block_index) s in
          let block_string :=
            strncpy command (start_block_index + 1)
              (end_block_index - start_block_index - 1) in
          let* s2 :=
            while_current_cell fuel (run_segment fuel block_string) s1 in
          let len := (length command - end_block_index)%nat in
          if (1 <? len)%nat
          then run_segment fuel
                 (strncpy command (end_block_index + 1) (len - 1)) s2
          else Done s2
    end.
Proof. by destruct command. Qed.

(** The three copies [parse_block] makes of a text made of a prefix, a
    block and a rest. *)
Lemma strncpy_segments (pre body rest : list ascii) :
  let command := pre ++ "[" :: body ++ "]" :: rest in
  let b := length pre in
  let e := (length pre + 1 + length body)%nat in
  strncpy command 0 b = pre ∧
  strncpy command (b + 1) (e - b - 1) = body ∧
  (length command - e = 1 + length rest)%nat ∧
  strncpy command (e + 1) (1 + length rest - 1) = rest.
Proof.
  cbn zeta. unfold strncpy. split_and!.
  - by rewrite drop_0, take_app_length.
  - rewrite (cons_middle "[" pre), app_assoc.
    rewrite drop_app_length' by (rewrite length_app; cbn; lia).
    replace (length pre + 1 + length body - length pre - 1)%nat
      with (length body) by lia.
    by rewrite take_app_length.
  - rewrite !length_app. cbn [length]. rewrite length_app. cbn [length]. lia.
  - rewrite (cons_middle "[" pre), (cons_middle "]" body), !app_assoc.
    rewrite drop_app_length' by (rewrite !length_app; cbn; lia).
    replace (1 + length rest - 1)%nat with (length rest) by lia.
    by rewrite firstn_all.
Qed.

(** How [parse_block] executes a flat prefix, a block with a balanced body
    and a rest: one after the other, and the block as a loop. *)
Lemma parse_block_split
    (fuel : nat) (pre body rest : list ascii) (s : state) :
  flat pre → never_negative body → net body = 0 →
  parse_block (S fuel) (pre ++ "[" :: body ++ "]" :: rest) s =
    let* s1 := parse_command pre s in
    let* s2 := while_current_cell fuel (run_segment fuel body) s1 in
    run_segment fuel rest s2.
Proof.
  intros Hpre Hnn Hnet.
  rewrite parse_block_unfold by (by destruct pre).
  destruct (block_indices pre body rest Hpre Hnn Hnet) as [-> ->].
  destruct (strncpy_segments pre body rest) as (Hp & Hb & Hlen & Hr).
  cbn zeta in *.
  destruct (Z.eqb_spec (Z.of_nat (length pre + 1 + length body)) INVALID_BLOCK)
    as [Hbad|_]; [unfold INVALID_BLOCK in Hbad; lia|].
  rewrite Nat2Z.id, Hp, Hb, Hlen, Hr.
  assert (Hfirst : (if (length pre =? 0)%nat then Done s
                    else parse_command pre s) = parse_command pre s).
  { by destruct pre. }
  rewrite Hfirst. destruct (parse_command pre s) as [s1| |]; [|done..].
  cbn [bind].
  destruct (while_current_cell fuel (run_segment fuel body) s1)
    as [s2| |]; [|done..].
  cbn [bind]. destruct rest as [|c rest]; [done|].
  by destruct (Nat.ltb_spec 1 (1 + length (c :: rest))); [|cbn in *; lia].
Qed.

(** The loop scans on after a prefix that was scanned to its end. *)
Lemma parse_command_loop_app (pre rest : list ascii) :
  ∀ s s' : state, parse_command_loop pre s = Next s' →
    parse_command_loop (pre ++ rest) s = parse_command_loop rest s'.
Proof.
  induction pre as [|c pre IH]; intros s s' Hpre.
  - by injection Hpre as ->.
  - cbn [parse_command_loop app] in *.
    destruct (dispatch c s) as [s1| |]; [|done..]. by apply IH.
Qed.

(** The loop returns exactly after some number of full runs of the body,
    each entered on a cell that is not zero, when the cell is zero. *)
Lemma while_current_cell_repeat (body : state → result) :
  ∀ (fuel : nat) (s s' : state),
    while_current_cell fuel body s = Done s' ↔
    ∃ n : nat, (n <= fuel)%nat ∧ repeat_body n body s = Some s' ∧
               load s' = Some 0.
Proof.
  intros fuel s s'. split.
  - revert s. induction fuel as [|fuel IH]; intros s Hrun;
      cbn [while_current_cell] in Hrun;
      destruct (load s) as [v|] eqn:Hv; try done;
      destruct (Z.eqb_spec v 0) as [->|Hnz]; try done.
    + injection Hrun as <-. by exists O.
    + injection Hrun as <-. exists O. split_and!; [lia|done..].
    + destruct (body s) as [s1| |] eqn:Hb; try done. cbn [bind] in Hrun.
      destruct (IH s1 Hrun) as (n & Hn & Hrep & Hz).
      exists (S n). split_and!; [lia| |done].
      cbn [repeat_body]. rewrite Hv.
      destruct (Z.eqb_spec v 0); [done|]. by rewrite Hb.
  - intros (n & Hn & Hrep & Hz). revert fuel s Hn Hrep.
    induction n as [|n IH]; intros fuel s Hn Hrep.
    + injection Hrep as ->.
      destruct fuel; cbn [while_current_cell]; by rewrite Hz.
    + destruct fuel as [|fuel]; [lia|].
      cbn [repeat_body] in Hrep. cbn [while_current_cell].
      destruct (load s) as [v|]; [|done].
      destruct (v =? 0); [done|].
      destruct (body s) as [s1| |]; [|done..]. cbn [bind].
      apply IH; [lia|done].
Qed.

(** More fuel does not change what a loop that returned, or whose behaviour
    is undefined, comes to. *)
Lemma while_current_cell_mono (body1 body2 : state → result) :
  (∀ (s : state) (r : result), body1 s = r → r ≠ Timeout → body2 s = r) →
  ∀ (fuel1 fuel2 : nat) (s : state) (r : result),
    (fuel1 <= fuel2)%nat →
    while_current_cell fuel1 body1 s = r → r ≠ Timeout →
    while_current_cell fuel2 body2 s = r.
Proof.
  intros Hbody fuel1.
  induction fuel1 as [|fuel1 IH]; intros fuel2 s r Hle Hrun Hr.
  - cbn [while_current_cell] in Hrun.
    destruct fuel2; cbn [while_current_cell];
      destruct (load s) as [v|]; try done;
      destruct (v =? 0); try done; by subst r.
  - destruct fuel2 as [|fuel2]; [lia|].
    cbn [while_current_cell] in *.
    destruct (load s) as [v|]; [|done].
    destruct (v =? 0); [done|].
    destruct (body1 s) as [s1| |] eqn:Hb.
    + rewrite (Hbody s (Done s1) Hb) by done. cbn [bind] in *.
      apply IH; [lia|done..].
    + rewrite (Hbody s Undefined Hb) by done. done.
    + cbn [bind] in Hrun. by subst r.
Qed.

Lemma parse_block_mono (fuel1 : nat) :
  ∀ (fuel2 : nat) (command : list ascii) (s : state) (r : result),
    (fuel1 <= fuel2)%nat →
    parse_block fuel1 command s = r → r ≠ Timeout →
    parse_block fuel2 command s = r.
Proof.
  induction fuel1 as [|fuel1 IH]; intros fuel2 command s r Hle Hrun Hr.
  { cbn in Hrun. by subst r. }
  destruct fuel2 as [|fuel2]; [lia|].
  destruct command as [|c command]; [done|].
  rewrite parse_block_unfold in * by done.
  destruct (strchr (c :: command) "[") as [start|]; [|done].
  cbn zeta in *.
  destruct (find_closing (c :: command) =? INVALID_BLOCK); [done|].
  destruct (if (start =? 0)%nat then Done s else parse_command _ s)
    as [s1| |]; cbn [bind] in *; try done.
  assert (Hseg : ∀ (text : list ascii) (s : state) (r : result),
            run_segment fuel1 text s = r → r ≠ Timeout →
            run_segment fuel2 text s = r).
  { intros text s0 r0. unfold run_segment.
    destruct (has_char text "["); [apply IH; lia|done]. }
  destruct (while_current_cell fuel1 _ s1) as [s2| |] eqn:Hloop.
  - rewrite (while_current_cell_mono _ (run_segment fuel2 _) (Hseg _)
               fuel1 fuel2 s1 (Done s2)) by (done || lia).
    cbn [bind] in *. destruct (1 <? _)%nat; [by apply Hseg|done].
  - rewrite (while_current_cell_mono _ (run_segment fuel2 _) (Hseg _)
               fuel1 fuel2 s1 Undefined) by (done || lia).
    done.
  - cbn [bind] in Hrun. by subst r.
Qed.

Lemma bind_Done (r : result) : bind r Done = r.
Proof. by destruct r. Qed.

Lemma flat_never_negative (l : list ascii) :
  flat l → never_negative l ∧ net l = 0.
Proof.
  intros Hflat. split; [|by apply net_flat].
  intros k. by rewrite net_flat by by apply flat_take.
Qed.

(** A move refused at an end of the tape: the segment returns at once,
    with the message printed and nothing else changed. *)
Lemma parse_command_refused
    (pre rest msg : list ascii) (c : ascii) (s s' : state) :
  parse_command_loop pre s = Next s' →
  (c = "<" ∧ current_cell s' <= 0 ∧ msg = begining_of_memory_message ∨
   c = ">" ∧ MEMORY_SIZE <= current_cell s' ∧ msg = end_of_memory_message) →
  parse_command (pre ++ c :: rest) s = Done (printf msg s').
Proof.
  intros Hpre Hc. unfold parse_command.
  rewrite (parse_command_loop_app _ _ _ _ Hpre). cbn [parse_command_loop].
  destruct Hc as [(-> & Hcur & ->)|(-> & Hcur & ->)];
    unfold dispatch; cbn [Ascii.eqb Bool.eqb andb].
  - by destruct (Z.ltb_spec 0 (current_cell s')); [lia|].
  - by destruct (Z.ltb_spec 0 (MEMORY_SIZE - current_cell s')); [lia|].
Qed.

End BlockExecution.

(** C3. Let a flat segment [pre ++ c :: rest] be refused the move [c] at an
    end of the tape after [pre] was executed to [s']. Then [parse_command]
    on the segment returns in [s'] with the message printed: [rest] is
    skipped, the tape and cursor are as [pre] left them. As the prefix of a
    block, the segment is followed by the loop of the block and then by what
    follows the block, both run from that state. As the body of a block
    entered on a cell that is not zero, it is followed by the remaining
    turns of the loop and then by what follows the block. *)
Theorem bounds_error_aborts_only_its_segment
    (fuel : nat) (pre rest body suffix msg : list ascii) (c : ascii)
    (s s' : state) :
  flat pre → flat rest → never_negative body → net body = 0 →
  parse_command_loop pre s = Next s' →
  (c = "<" ∧ current_cell s' <= 0 ∧ msg = begining_of_memory_message ∨
   c = ">" ∧ MEMORY_SIZE <= current_cell s' ∧ msg = end_of_memory_message) →
  let segment := pre ++ c :: rest in
  let failed := printf msg s' in
  parse_command segment s = Done failed ∧
  memory failed = memory s' ∧ current_cell failed = current_cell s' ∧
  parse_block (S fuel) (segment ++ "[" :: body ++ "]" :: suffix) s =
    (let* s2 := while_current_cell fuel (run_segment fuel body) failed in
     run_segment fuel suffix s2) ∧
  (∀ v : Z, load s = Some v → v ≠ 0 →
     parse_block (S (S fuel)) ("[" :: segment ++ "]" :: suffix) s =
       (let* s2 :=
          while_current_cell fuel (run_segment (S fuel) segment) failed in
        run_segment (S fuel) suffix s2)).
Proof.
  intros Hpre Hrest Hnn Hnet Hrun Hc. cbn zeta.
  assert (Hseg : flat (pre ++ c :: rest)).
  { apply Forall_app. split; [done|]. apply Forall_cons. split; [|done].
    destruct Hc as [(-> & _)|(-> & _)]; done. }
  pose proof (parse_command_refused pre rest msg c s s' Hrun Hc) as Hfail.
  split_and!; [done..| |].
  - rewrite parse_block_split by done. by rewrite Hfail.
  - intros v Hv Hnz.
    destruct (flat_never_negative _ Hseg) as [Hsnn Hsnet].
    pose proof (parse_block_split (S fuel) [] (pre ++ c :: rest) suffix s
                  (Forall_nil_2 _) Hsnn Hsnet) as Hsplit.
    rewrite app_nil_l in Hsplit. rewrite Hsplit.
    cbn [parse_command parse_command_loop bind while_current_cell].
    rewrite Hv. destruct (Z.eqb_spec v 0); [done|].
    rewrite (run_segment_flat (S fuel) _ s Hseg), Hfail. done.
Qed.

(** An instance, ["<+[>]+"] on a fresh tape: ["<"] is refused, the ["+"] after
    it is skipped, the loop is not entered, the final ["+"] is executed. *)
Lemma bounds_error_aborts_only_its_segment_witness :
  parse_block 2 (cstr "<+[>]+") (initial_state []) =
    Done (set_memory (<[0%nat := 1]> (memory (initial_state [])))
            (printf begining_of_memory_message (initial_state []))).
Proof.
  assert (Hplus : flat (cstr "+")) by (repeat constructor; discriminate).
  assert (Hright : flat (cstr ">")) by (repeat constructor; discriminate).
  destruct (bounds_error_aborts_only_its_segment 1 [] (cstr "+") (cstr ">")
              (cstr "+") begining_of_memory_message "<"
              (initial_state []) (initial_state [])
              (Forall_nil_2 _) Hplus
              (proj1 (flat_never_negative _ Hright))
              (proj2 (flat_never_negative _ Hright))
              eq_refl
              (or_introl (conj eq_refl (conj (Z.le_refl 0) eq_refl))))
    as (_ & _ & _ & Hblock & _).
  exact Hblock.
Defined.

(** C6. A block ["[" body "]"] with a balanced body is executed as the loop
    that runs the body while the cell at the cursor is not zero: it returns
    in [s'] exactly when [s'] comes after some number of full runs of the
    body, each entered on a cell that is not zero, and has a zero cell at the
    cursor. Entered on a zero cell the block, and ["[+]"] among them, returns
    at once in the state it was entered in. *)
Theorem block_repeats_body_while_nonzero
    (fuel : nat) (body : list ascii) (s : state) :
  never_negative body → net body = 0 →
  parse_block (S fuel) ("[" :: body ++ ["]"]) s =
    while_current_cell fuel (run_segment fuel body) s ∧
  (∀ s' : state,
     parse_block (S fuel) ("[" :: body ++ ["]"]) s = Done s' ↔
     ∃ n : nat, (n <= fuel)%nat ∧
       repeat_body n (run_segment fuel body) s = Some s' ∧ load s' = Some 0) ∧
  (load s = Some 0 → parse_block (S fuel) ("[" :: body ++ ["]"]) s = Done s) ∧
  (load s = Some 0 → parse_block (S fuel) (cstr "[+]") s = Done s).
Proof.
  intros Hnn Hnet.
  assert (Hloop : ∀ text : list ascii, never_negative text → net text = 0 →
            parse_block (S fuel) ("[" :: text ++ ["]"]) s =
            while_current_cell fuel (run_segment fuel text) s).
  { intros text Htnn Htnet.
    pose proof (parse_block_split fuel [] text [] s
                  (Forall_nil_2 _) Htnn Htnet) as Hsplit.
    rewrite app_nil_l in Hsplit. rewrite Hsplit.
    cbn [parse_command parse_command_loop bind].
    unfold run_segment at 2. cbn [has_char strchr].
    apply bind_Done. }
  assert (Hzero : ∀ text : list ascii, load s = Some 0 →
            while_current_cell fuel (run_segment fuel text) s = Done s).
  { intros text Hz. destruct fuel; cbn [while_current_cell]; by rewrite Hz. }
  split_and!.
  - by apply Hloop.
  - intros s'. rewrite Hloop by done. apply while_current_cell_repeat.
  - intros Hz. rewrite Hloop by done. by apply Hzero.
  - intros Hz.
    assert (Hplus : flat (cstr "+")) by (repeat constructor; discriminate).
    destruct (flat_never_negative _ Hplus) as [Hpnn Hpnet].
    change (cstr "[+]") with ("[" :: cstr "+" ++ ["]"]).
    rewrite Hloop by done. by apply Hzero.
Qed.

(** An instance: ["[+]"] on a fresh tape. *)
Lemma block_repeats_body_while_nonzero_witness :
  parse_block 1 (cstr "[+]") (initial_state []) = Done (initial_state []).
Proof.
  assert (Hplus : flat (cstr "+")) by (repeat constructor; discriminate).
  destruct (block_repeats_body_while_nonzero 0 (cstr "+") (initial_state [])
              (proj1 (flat_never_negative _ Hplus))
              (proj2 (flat_never_negative _ Hplus)))
    as (_ & _ & _ & Hzero).
  exact (Hzero eq_refl).
Defined.

(** C7. From the state at process start, whatever the input and with any
    fuel from 5 on, the line ["++++[>++++<-]>"] is executed to the end: the
    cursor is then at index 1, that cell holds 16, the cell at index 0 holds
    0 as every other cell does, and nothing was read or printed. *)
Theorem multiply_four_by_four (fuel : nat) (input : list ascii) :
  ∃ s' : state,
    execute_line (5 + fuel) (cstr "++++[>++++<-]>") (initial_state input) =
      Done s' ∧
    current_cell s' = 1 ∧
    memory s' !! 1%nat = Some 16 ∧ memory s' !! 0%nat = Some 0 ∧
    memory s' = <[1%nat := 16]> (memory (initial_state input)) ∧
    stdin s' = input ∧ stdout s' = [].
Proof.
  eexists. split_and!.
  - change (execute_line (5 + fuel) (cstr "++++[>++++<-]>") (initial_state input))
      with (parse_block (5 + fuel) (cstr "++++[>++++<-]>") (initial_state input)).
    apply (parse_block_mono 5); [lia| |done].
    vm_compute. reflexivity.
  - reflexivity.
  - reflexivity.
  - reflexivity.
  - reflexivity.
  - reflexivity.
  - reflexivity.
Qed.

(** * Properties of the whole program *)

Section Invariants.

(** A property of the state that every instruction keeps is kept by
    [parse_command] and by [parse_block]. *)
Variable P : state → Prop.

Hypothesis dispatch_keeps :
  ∀ (c : ascii) (s : state), P s →
    match dispatch c s with
    | Next s' | Return s' => P s'
    | Fault => True
    end.

Lemma parse_command_loop_keeps (command : list ascii) :
  ∀ s : state, P s →
    match parse_command_loop command s with
    | Next s' | Return s' => P s'
    | Fault => True
    end.
Proof.
  induction command as [|c command IH]; intros s Hs; [done|].
  cbn [parse_command_loop].
  pose proof (dispatch_keeps c s Hs) as Hc.
  destruct (dispatch c s); [by apply IH|done|done].
Qed.

Lemma parse_command_keeps (command : list ascii) (s s' : state) :
  P s → parse_command command s = Done s' → P s'.
Proof.
  intros Hs. unfold parse_command.
  pose proof (parse_command_loop_keeps command s Hs) as Hc.
  destruct (parse_command_loop command s); intros [= <-] || done; done.
Qed.

Lemma while_current_cell_keeps (body : state → result) :
  (∀ s s' : state, P s → body s = Done s' → P s') →
  ∀ (fuel : nat) (s s' : state),
    P s → while_current_cell fuel body s = Done s' → P s'.
Proof.
  intros Hbody fuel.
  induction fuel as [|fuel IH]; intros s s' Hs Hrun;
    cbn [while_current_cell] in Hrun;
    destruct (load s) as [v|]; try done;
    destruct (v =? 0); try done; try (by injection Hrun as <-).
  destruct (body s) as [s1| |] eqn:Hb; try done. cbn [bind] in Hrun.
  eauto.
Qed.

Lemma parse_block_keeps (fuel : nat) :
  ∀ (command : list ascii) (s s' : state),
    P s → parse_block fuel command s = Done s' → P s'.
Proof.
  induction fuel as [|fuel IH]; intros command s s' Hs Hrun; [done|].
  destruct command as [|c command]; [by injection Hrun as <-|].
  rewrite parse_block_unfold in Hrun by done.
  destruct (strchr (c :: command) "[") as [start|]; [|done].
  cbn zeta in Hrun.
  destruct (find_closing (c :: command) =? INVALID_BLOCK); [done|].
  assert (Hseg : ∀ (text : list ascii) (s s' : state),
            P s → run_segment fuel text s = Done s' → P s').
  { intros text s0 s0'. unfold run_segment.
    destruct (has_char text "["); [apply IH|apply parse_command_keeps]. }
  destruct (if (start =? 0)%nat then Done s else parse_command _ s)
    as [s1| |] eqn:Hpre; cbn [bind] in Hrun; try done.
  assert (Hs1 : P s1).
  { destruct (start =? 0)%nat; [by injection Hpre as <-|].
    by eapply parse_command_keeps. }
  destruct (while_current_cell fuel _ s1) as [s2| |] eqn:Hloop;
    cbn [bind] in Hrun; try done.
  assert (Hs2 : P s2).
  { eapply while_current_cell_keeps; [|exact Hs1|exact Hloop]. apply Hseg. }
  destruct (1 <? _)%nat; [by eapply Hseg|by injection Hrun as <-].
Qed.

End Invariants.

Section KeptByInstructions.

Lemma store_shape (w : Z) (s s' : state) :
  -128 <= w <= 127 → tape_shape s → store w s = Some s' → tape_shape s'.
Proof.
  intros Hw [Hlen Hall]. unfold store.
  destruct (current_cell s <? 0); [done|].
  destruct (_ <? _)%nat; [|done]. intros [= <-]. split; cbn.
  - by rewrite length_insert.
  - by apply Forall_insert.
Qed.

Lemma dispatch_tape_shape (c : ascii) (s : state) :
  tape_shape s →
  match dispatch c s with
  | Next s' | Return s' => tape_shape s'
  | Fault => True
  end.
Proof.
  intros Hs. unfold dispatch.
  repeat match goal with
         | |- context [Ascii.eqb c ?x] => destruct (Ascii.eqb c x)
         end.
  - destruct (load s) as [v|]; [|done]. cbn.
    destruct (store _ s) as [s'|] eqn:Hst; [|done]. cbn.
    eapply store_shape; [apply to_char_range|done..].
  - destruct (load s) as [v|]; [|done]. cbn.
    destruct (store _ s) as [s'|] eqn:Hst; [|done]. cbn.
    eapply store_shape; [apply to_char_range|done..].
  - by destruct (0 <? MEMORY_SIZE - current_cell s).
  - by destruct (0 <? current_cell s).
  - by destruct (load s).
  - pose proof (getchar_tape s) as (Hmem & _ & _).
    destruct (getchar s) as [ch s1]. cbn [snd] in Hmem.
    assert (Hs1 : tape_shape s1) by (unfold tape_shape; by rewrite Hmem).
    destruct (store _ s1) as [s2|] eqn:Hst; [|done]. cbn.
    apply store_shape in Hst; [|apply to_char_range|done].
    destruct (load s2) as [v|]; [|done]. cbn.
    destruct (v =? 10); [|done].
    destruct (store 0 s2) as [s3|] eqn:Hst0; [|done]. cbn.
    eapply store_shape; [|done..]. lia.
  - done.
Qed.

Lemma streams_advance_refl (s : state) : streams_advance s s.
Proof. split; [exists []; by rewrite app_nil_r | by exists O]. Qed.

Lemma streams_advance_same (s s' : state) :
  stdin s' = stdin s → stdout s' = stdout s → streams_advance s s'.
Proof.
  intros Hi Ho. split; [exists []; by rewrite app_nil_r | by exists O].
Qed.

Lemma streams_advance_trans (s1 s2 s3 : state) :
  streams_advance s1 s2 → streams_advance s2 s3 → streams_advance s1 s3.
Proof.
  intros [(o & Ho) (n & Hn)] [(o' & Ho') (n' & Hn')]. split.
  - exists (o ++ o'). by rewrite Ho', Ho, app_assoc.
  - exists (n + n')%nat. by rewrite Hn', Hn, drop_drop.
Qed.

Lemma store_streams (w : Z) (s s' : state) :
  store w s = Some s' → stdin s' = stdin s ∧ stdout s' = stdout s.
Proof.
  unfold store. destruct (current_cell s <? 0); [done|].
  destruct (_ <? _)%nat; [|done]. by intros [= <-].
Qed.

Lemma dispatch_streams (c : ascii) (s : state) :
  match dispatch c s with
  | Next s' | Return s' => streams_advance s s'
  | Fault => True
  end.
Proof.
  unfold dispatch.
  repeat match goal with
         | |- context [Ascii.eqb c ?x] => destruct (Ascii.eqb c x)
         end.
  - destruct (load s) as [v|]; [|done]. cbn.
    destruct (store _ s) as [s'|] eqn:Hst; [|done]. cbn.
    destruct (store_streams _ _ _ Hst) as [Hi Ho].
    split; [exists []; by rewrite app_nil_r | by exists O].
  - destruct (load s) as [v|]; [|done]. cbn.
    destruct (store _ s) as [s'|] eqn:Hst; [|done]. cbn.
    destruct (store_streams _ _ _ Hst) as [Hi Ho].
    split; [exists []; by rewrite app_nil_r | by exists O].
  - destruct (0 <? MEMORY_SIZE - current_cell s); cbn.
    + by apply streams_advance_same.
    + split; [by eexists | by exists O].
  - destruct (0 <? current_cell s); cbn.
    + by apply streams_advance_same.
    + split; [by eexists | by exists O].
  - destruct (load s) as [v|]; [|done]. cbn.
    split; [by eexists | by exists O].
  - assert (Hget : stdout (getchar s).2 = stdout s ∧
                   ∃ n : nat, stdin (getchar s).2 = drop n (stdin s)).
    { unfold getchar. destruct (stdin s) as [|x rest] eqn:Hin; cbn.
      - split; [done|]. by exists O.
      - split; [done|]. by exists 1%nat. }
    destruct (getchar s) as [ch s1]. cbn [snd] in Hget.
    destruct Hget as [Hout (n & Hin)].
    destruct (store _ s1) as [s2|] eqn:Hst; [|done]. cbn.
    destruct (store_streams _ _ _ Hst) as [Hi Ho].
    destruct (load s2) as [v|]; [|done]. cbn.
    destruct (v =? 10).
    + destruct (store 0 s2) as [s3|] eqn:Hst0; [|done]. cbn.
      destruct (store_streams _ _ _ Hst0) as [Hi0 Ho0].
      split; [exists []; rewrite app_nil_r; congruence|].
      exists n. congruence.
    + cbn. split; [exists []; rewrite app_nil_r; congruence|].
      exists n. congruence.
  - apply streams_advance_refl.
Qed.

End KeptByInstructions.

(** X1. Whatever text [parse_block] is given, if it is entered with the
    cursor in [0, MEMORY_SIZE], both ends included, and returns, the cursor
    is in that range again; so for [parse_command]. *)
Theorem cursor_stays_within_closed_range
    (fuel : nat) (command : list ascii) (s s' : state) :
  0 <= current_cell s <= MEMORY_SIZE →
  (parse_block fuel command s = Done s' ∨ parse_command command s = Done s') →
  0 <= current_cell s' <= MEMORY_SIZE.
Proof.
  intros Hs [Hrun|Hrun].
  - by apply (parse_block_keeps _ dispatch_cursor_range fuel command s s').
  - by apply (parse_command_keeps _ dispatch_cursor_range command s s').
Qed.

Lemma cursor_stays_within_closed_range_witness :
  ∃ s' : state,
    parse_command (replicate 300 ">") (initial_state []) = Done s' ∧
    0 <= current_cell s' <= MEMORY_SIZE.
Proof.
  eexists. split; [vm_compute; reflexivity|].
  apply (cursor_stays_within_closed_range 0 (replicate 300 ">")
           (initial_state [])).
  - vm_compute. split; discriminate.
  - right. vm_compute. reflexivity.
Defined.

(** X2. The tape is never resized and its cells stay values of type [char]:
    if [parse_block] or [parse_command] is entered on a tape of
    [MEMORY_SIZE] cells of [-128, 127] and returns, the tape is such a tape
    again. *)
Theorem tape_keeps_its_shape
    (fuel : nat) (command : list ascii) (s s' : state) :
  tape_shape s →
  (parse_block fuel command s = Done s' ∨ parse_command command s = Done s') →
  tape_shape s'.
Proof.
  intros Hs [Hrun|Hrun].
  - by apply (parse_block_keeps _ dispatch_tape_shape fuel command s s').
  - by apply (parse_command_keeps _ dispatch_tape_shape command s s').
Qed.

Lemma tape_keeps_its_shape_witness :
  ∃ s' : state,
    parse_block 3 (cstr "-[+]") (initial_state []) = Done s' ∧ tape_shape s'.
Proof.
  eexists. split; [vm_compute; reflexivity|].
  apply (tape_keeps_its_shape 3 (cstr "-[+]") (initial_state [])).
  - split; [reflexivity|]. apply Forall_replicate. lia.
  - left. vm_compute. reflexivity.
Defined.

(** X3. Execution only appends to the output and only reads the input from
    its front: if [parse_block] or [parse_command] returns, the output it
    leaves starts with the output it found, and the input it leaves is the
    input it found without some first characters. *)
Theorem streams_only_advance
    (fuel : nat) (command : list ascii) (s s' : state) :
  (parse_block fuel command s = Done s' ∨ parse_command command s = Done s') →
  (∃ out : list ascii, stdout s' = stdout s ++ out) ∧
  (∃ n : nat, stdin s' = drop n (stdin s)).
Proof.
  assert (Hstep : ∀ (c : ascii) (s0 : state), streams_advance s s0 →
            match dispatch c s0 with
            | Next s1 | Return s1 => streams_advance s s1
            | Fault => True
            end).
  { intros c s0 Hs0. pose proof (dispatch_streams c s0) as Hc.
    destruct (dispatch c s0); eauto using streams_advance_trans. }
  intros [Hrun|Hrun].
  - apply (parse_block_keeps _ Hstep fuel command s s');
      [apply streams_advance_refl|done].
  - apply (parse_command_keeps _ Hstep command s s');
      [apply streams_advance_refl|done].
Qed.

Lemma streams_only_advance_witness :
  ∃ s' : state,
    parse_block 3 (cstr ",[.,]") (initial_state (cstr "A" ++ [LF])) = Done s' ∧
    (∃ out : list ascii, stdout s' = [] ++ out) ∧
    (∃ n : nat, stdin s' = drop n (cstr "A" ++ [LF])).
Proof.
  eexists. split; [vm_compute; reflexivity|].
  apply (streams_only_advance 3 (cstr ",[.,]")
           (initial_state (cstr "A" ++ [LF]))).
  left. vm_compute. reflexivity.
Defined.

Section Comments.

Lemma dispatch_other (c : ascii) (s : state) :
  is_instruction c = false → dispatch c s = Next s.
Proof.
  unfold is_instruction, dispatch. intros Hc.
  repeat match goal with
         | |- context [Ascii.eqb c ?x] => destruct (Ascii.eqb c x); try done
         end.
Qed.

Lemma parse_command_loop_filter (command : list ascii) :
  ∀ s : state,
    parse_command_loop (List.filter is_instruction command) s =
    parse_command_loop command s.
Proof.
  induction command as [|c command IH]; intros s; [done|].
  cbn [List.filter]. destruct (is_instruction c) eqn:Hc.
  - cbn [parse_command_loop]. destruct (dispatch c s); [apply IH|done..].
  - cbn [parse_command_loop]. by rewrite (dispatch_other c s Hc).
Qed.

(** What one instruction that goes on reads and prints. *)
Lemma dispatch_next_streams (c : ascii) (s s' : state) :
  dispatch c s = Next s' →
  stdin s' = drop (count_char "," [c]) (stdin s) ∧
  length (stdout s') = (length (stdout s) + count_char "." [c])%nat.
Proof.
  unfold dispatch. cbn [count_char].
  destruct (Ascii.eqb_spec c "+") as [->|_].
  { destruct (load s) as [v|]; [|done]. cbn.
    destruct (store _ s) as [s1|] eqn:Hst; [|done]. cbn. intros [= <-].
    destruct (store_streams _ _ _ Hst) as [-> ->]. split; [done|lia]. }
  destruct (Ascii.eqb_spec c "-") as [->|_].
  { destruct (load s) as [v|]; [|done]. cbn.
    destruct (store _ s) as [s1|] eqn:Hst; [|done]. cbn. intros [= <-].
    destruct (store_streams _ _ _ Hst) as [-> ->]. split; [done|lia]. }
  destruct (Ascii.eqb_spec c ">") as [->|_].
  { destruct (0 <? _); [|done]. intros [= <-]. cbn. split; [done|lia]. }
  destruct (Ascii.eqb_spec c "<") as [->|_].
  { destruct (0 <? _); [|done]. intros [= <-]. cbn. split; [done|lia]. }
  destruct (Ascii.eqb_spec c ".") as [->|Hdot].
  { destruct (load s) as [v|]; [|done]. cbn. intros [= <-]. cbn.
    split; [done|]. rewrite length_app. cbn. lia. }
  destruct (Ascii.eqb_spec c ",") as [->|Hcomma].
  { assert (Hget : stdout (getchar s).2 = stdout s ∧
                   stdin (getchar s).2 = drop 1 (stdin s)).
    { unfold getchar. destruct (stdin s) as [|x rest] eqn:Hin; cbn.
      - by rewrite Hin.
      - done. }
    destruct (getchar s) as [ch s1]. cbn [snd] in Hget.
    destruct Hget as [Ho Hi].
    destruct (store _ s1) as [s2|] eqn:Hst; [|done]. cbn.
    destruct (store_streams _ _ _ Hst) as [Hi2 Ho2].
    destruct (load s2) as [v|]; [|done]. cbn.
    destruct (v =? 10).
    - destruct (store 0 s2) as [s3|] eqn:Hst0; [|done]. cbn. intros [= <-].
      destruct (store_streams _ _ _ Hst0) as [Hi3 Ho3].
      cbn. split; [congruence|]. rewrite Ho3, Ho2, Ho. lia.
    - cbn. intros [= <-]. cbn. split; [congruence|].
      rewrite Ho2, Ho. lia. }
  intros [= <-]. cbn. split; [done|lia].
Qed.

Lemma count_char_cons (c x : ascii) (l : list ascii) :
  count_char c (x :: l) = (count_char c [x] + count_char c l)%nat.
Proof. cbn [count_char]. lia. Qed.

End Comments.

Lemma other_characters_skipped (command : list ascii) (s : state) :
  parse_command (List.filter is_instruction command) s =
  parse_command command s.
Proof. unfold parse_command. by rewrite parse_command_loop_filter. Qed.

(** X4. [parse_command] skips every character that is not one of the six
    instructions: erasing those characters from a command changes nothing
    of what the command does. *)
Theorem other_characters_are_comments (command : list ascii) (s : state) :
  parse_command (List.filter is_instruction command) s =
  parse_command command s.
Proof. apply other_characters_skipped. Qed.

(** X5. A command that [parse_command] scans to its end has read as many
    characters as it has [","], or all that were left, and has printed as
    many characters as it has ["."]. *)
Theorem scan_reads_commas_prints_dots (command : list ascii) (s s' : state) :
  parse_command_loop command s = Next s' →
  stdin s' = drop (count_char "," command) (stdin s) ∧
  length (stdout s') = (length (stdout s) + count_char "." command)%nat.
Proof.
  revert s. induction command as [|c command IH]; intros s Hrun.
  { injection Hrun as <-. cbn. split; [done|lia]. }
  cbn [parse_command_loop] in Hrun.
  destruct (dispatch c s) as [s1| |] eqn:Hc; [|done..].
  destruct (dispatch_next_streams c s s1 Hc) as [Hi Ho].
  destruct (IH s1 Hrun) as [Hi' Ho'].
  rewrite (count_char_cons "," c), (count_char_cons "." c). split.
  - rewrite Hi', Hi, drop_drop. done.
  - lia.
Qed.

Lemma scan_reads_commas_prints_dots_witness :
  ∃ s' : state,
    parse_command_loop (cstr ",.,.,") (initial_state (cstr "ab")) = Next s' ∧
    stdin s' = [] ∧ length (stdout s') = 2%nat.
Proof.
  eexists. split; [vm_compute; reflexivity|].
  exact (scan_reads_commas_prints_dots (cstr ",.,.,") (initial_state (cstr "ab"))
           _ eq_refl).
Defined.

Section Classification.

(** A scan either dips below zero on some prefix or never does. *)
Lemma dip_or_never (l : list ascii) :
  ∀ balance : Z, 0 <= balance →
    (∃ k : nat, balance + net (take k l) < 0) ∨
    (∀ k : nat, 0 <= balance + net (take k l)).
Proof.
  induction l as [|c l IH]; intros balance Hb.
  { right. intros k. rewrite take_nil, net_nil. lia. }
  assert (Hstep : ∀ d : Z, (∀ l', net (c :: l') = d + net l') →
            0 <= balance + d →
            (∃ k : nat, balance + net (take k (c :: l)) < 0) ∨
            (∀ k : nat, 0 <= balance + net (take k (c :: l)))).
  { intros d Hnet Hd.
    destruct (IH (balance + d) Hd) as [[k Hk]|Hall].
    - left. exists (S k). rewrite firstn_cons, Hnet. lia.
    - right. intros [|k]; [rewrite take_0, net_nil; lia|].
      rewrite firstn_cons, Hnet. specialize (Hall k). lia. }
  destruct (Ascii.eqb_spec c "[") as [->|Ho].
  { apply (Hstep 1); [apply net_open|lia]. }
  destruct (Ascii.eqb_spec c "]") as [->|Hc].
  { destruct (Z.le_gt_cases 1 balance).
    - apply (Hstep (-1)); [|lia]. intros l'. rewrite net_close. lia.
    - left. exists 1%nat. rewrite firstn_cons, take_0, net_close, net_nil. lia. }
  apply (Hstep 0); [|lia]. intros l'. rewrite net_other by done. lia.
Qed.

Lemma count_char_strchr (c : ascii) (l : list ascii) :
  (0 < count_char c l)%nat → ∃ b : nat, strchr l c = Some b ∧ (b < length l)%nat.
Proof.
  induction l as [|x l IH]; cbn [count_char strchr length]; [lia|].
  destruct (Ascii.eqb_spec x c) as [->|Hx].
  - intros _. exists O. split; [done|lia].
  - intros Hpos. destruct IH as (b & -> & Hb); [lia|].
    exists (S b). split; [done|lia].
Qed.

Lemma strchr_take (c : ascii) (l : list ascii) (k b : nat) :
  strchr (take k l) c = Some b → strchr l c = Some b.
Proof.
  revert k b. induction l as [|x l IH]; intros k b.
  { by rewrite take_nil. }
  destruct k as [|k]; [done|]. rewrite firstn_cons. cbn [strchr].
  destruct (Ascii.eqb x c); [done|].
  destruct (strchr (take k l) c) as [b'|] eqn:Hs; [|done].
  by rewrite (IH k b' Hs).
Qed.

End Classification.

Lemma is_open_block_cases (text : list ascii) :
  (is_open_block text = INVALID_BLOCK ↔ ∃ k : nat, net (take k text) < 0) ∧
  (is_open_block text = CLOSED_BLOCK ↔ never_negative text ∧ net text = 0) ∧
  (is_open_block text = OPENED_BLOCK ↔ never_negative text ∧ 0 < net text).
Proof.
  unfold is_open_block, never_negative.
  assert (Hdip : (∃ k : nat, net (take k text) < 0) →
                 is_open_block_from 0 text = INVALID_BLOCK).
  { intros [k Hk]. apply is_open_block_from_dip; [lia|]. exists k. lia. }
  assert (Hfin : (∀ k : nat, 0 <= net (take k text)) →
                 is_open_block_from 0 text =
                   if 0 <? net text then OPENED_BLOCK else CLOSED_BLOCK).
  { intros Hall. rewrite is_open_block_from_final; [done|lia|].
    intros k. specialize (Hall k). lia. }
  destruct (dip_or_never text 0 ltac:(lia)) as [[k Hk]|Hall].
  - assert (Hno : ¬ ∀ k : nat, 0 <= net (take k text)).
    { intros Hall. specialize (Hall k). lia. }
    rewrite Hdip by (exists k; lia). unfold INVALID_BLOCK, CLOSED_BLOCK, OPENED_BLOCK.
    split_and!; split; try done; try (intros [? _]; done).
    intros _. exists k. lia.
  - assert (Hall' : ∀ k : nat, 0 <= net (take k text)).
    { intros k. specialize (Hall k). lia. }
    assert (Hend : 0 <= net text).
    { specialize (Hall' (length text)). by rewrite firstn_all in Hall'. }
    rewrite Hfin by done. unfold INVALID_BLOCK, CLOSED_BLOCK, OPENED_BLOCK.
    destruct (Z.ltb_spec 0 (net text)); split_and!; split;
      try done; try lia;
      try (intros [k Hk]; specialize (Hall' k); lia);
      try (intros [_ ?]; lia); try (intros _; split; [done|lia]).
Qed.

(** X6. The three answers of [is_open_block] are exact: [INVALID_BLOCK] is
    given only when the counter goes negative on some prefix,
    [CLOSED_BLOCK] only when it never does and ends at zero, [OPENED_BLOCK]
    only when it never does and ends positive. *)
Theorem is_open_block_exact (text : list ascii) :
  (is_open_block text = INVALID_BLOCK ↔ ∃ k : nat, net (take k text) < 0) ∧
  (is_open_block text = CLOSED_BLOCK ↔ never_negative text ∧ net text = 0) ∧
  (is_open_block text = OPENED_BLOCK ↔ never_negative text ∧ 0 < net text).
Proof. apply is_open_block_cases. Qed.

(** X7. An index that [find_closing] returns lies inside the text, after
    its first ["["], and holds a ["]"]: the lengths [parse_block] computes
    from it by subtraction are never negative. *)
Theorem find_closing_after_first_open (command : list ascii) :
  find_closing command ≠ INVALID_BLOCK →
  ∃ b e : nat,
    strchr command "[" = Some b ∧ find_closing command = Z.of_nat e ∧
    (b < e < length command)%nat ∧ command !! e = Some "]".
Proof.
  unfold find_closing. intros Hfound.
  destruct (find_closing_from_first command 0 0)
    as [[Hres _]|(e & Hres & He & Hz & _)]; [done|].
  assert (Hprev : net (take e command) = 1).
  { rewrite (net_take_S _ _ _ He), net_close, net_nil in Hz. lia. }
  destruct (count_char_strchr "[" (take e command)) as (b & Hb & Hlt).
  { unfold net in Hprev. lia. }
  rewrite length_take in Hlt. apply lookup_lt_Some in He as Hlen.
  exists b, e. split_and!; [by eapply strchr_take|rewrite Hres; lia|lia|lia|done].
Qed.

Lemma find_closing_after_first_open_witness :
  ∃ b e : nat,
    strchr (cstr "+[-]") "[" = Some b ∧ find_closing (cstr "+[-]") = Z.of_nat e ∧
    (b < e < 4)%nat.
Proof.
  destruct (find_closing_after_first_open (cstr "+[-]"))
    as (b & e & Hb & He & Hlt & _).
  - vm_compute. discriminate.
  - exists b, e. split; [exact Hb|]. split; [exact He|exact Hlt].
Defined.

Section ClosedText.

Lemma closed_intro (text : list ascii) :
  never_negative text → net text = 0 → is_open_block text = CLOSED_BLOCK.
Proof.
  intros Hnn Hnet. unfold is_open_block.
  rewrite is_open_block_from_final; [|lia|intros k; specialize (Hnn k); lia].
  by destruct (Z.ltb_spec 0 (0 + net text)); [lia|].
Qed.

(** A closed text with a ["["] is a flat prefix, a block with a balanced
    body and a balanced rest. *)
Lemma closed_block_parts (command : list ascii) (b : nat) :
  is_open_block command = CLOSED_BLOCK → strchr command "[" = Some b →
  ∃ pre body rest : list ascii,
    command = pre ++ "[" :: body ++ "]" :: rest ∧ length pre = b ∧
    flat pre ∧ never_negative body ∧ net body = 0 ∧
    never_negative rest ∧ net rest = 0.
Proof.
  intros Hclosed Hb.
  apply is_open_block_closed in Hclosed as [Hnn Hnet].
  apply strchr_split in Hb as (pre & l & -> & <- & Hpre).
  pose proof (never_negative_flat_prefix pre ("[" :: l) Hnn Hpre) as Hflat.
  rewrite net_app, net_open, (net_flat pre) in Hnet by done.
  destruct (find_closing_from_match l 0 1) as (j & _ & Hj & Hz & Hpos);
    [lia|exists (length l); rewrite firstn_all; lia|].
  assert (Hbody : net (take j l) = 0).
  { rewrite (net_take_S _ _ _ Hj), net_close, net_nil in Hz. lia. }
  pose proof (take_drop_middle l j "]" Hj) as Hl.
  exists pre, (take j l), (drop (S j) l).
  split_and!; [by rewrite Hl|done|done| |done| |].
  - intros k. rewrite take_take. specialize (Hpos (k `min` j)%nat). lia.
  - intros k.
    assert (Hwhole : pre ++ "[" :: l =
              (pre ++ "[" :: take j l ++ ["]"]) ++ drop (S j) l).
    { rewrite <- Hl at 1.
      by rewrite <- !app_assoc, <- !app_comm_cons, <- app_assoc. }
    specialize (Hnn (length (pre ++ "[" :: take j l ++ ["]"]) + k)%nat).
    rewrite Hwhole, take_app_add in Hnn.
    rewrite !net_app, net_open, net_app, net_close, net_nil in Hnn.
    rewrite (net_flat pre), Hbody in Hnn by done. lia.
  - assert (Hsum : net l = net (take j l) + net ("]" :: drop (S j) l)).
    { rewrite <- Hl at 1. apply net_app. }
    rewrite net_close in Hsum. lia.
Qed.

Lemma count_char_app (c : ascii) (l1 l2 : list ascii) :
  count_char c (l1 ++ l2) = (count_char c l1 + count_char c l2)%nat.
Proof.
  induction l1 as [|x l1 IH]; [done|].
  rewrite <- app_comm_cons. cbn [count_char]. lia.
Qed.

End ClosedText.

(** X8. On a text that [is_open_block] answers [CLOSED_BLOCK] for and that
    has a ["["], the three copies [parse_block] makes put together with the
    two brackets are the text again; the first has no bracket, and the block
    and what follows it are texts that [is_open_block] answers
    [CLOSED_BLOCK] for, as the calls on them need. *)
Theorem closed_text_splits_into_closed_parts (command : list ascii) (b : nat) :
  is_open_block command = CLOSED_BLOCK → strchr command "[" = Some b →
  ∃ e : nat,
    find_closing command = Z.of_nat e ∧
    let prefix := strncpy command 0 b in
    let block_string := strncpy command (b + 1) (e - b - 1) in
    let len := (length command - e)%nat in
    let suffix := strncpy command (e + 1) (len - 1) in
    command = prefix ++ "[" :: block_string ++ "]" :: suffix ∧
    flat prefix ∧
    is_open_block block_string = CLOSED_BLOCK ∧
    is_open_block suffix = CLOSED_BLOCK.
Proof.
  intros Hclosed Hb.
  destruct (closed_block_parts command b Hclosed Hb)
    as (pre & body & rest & -> & <- & Hpre & Hbnn & Hbnet & Hrnn & Hrnet).
  destruct (block_indices pre body rest Hpre Hbnn Hbnet) as [_ He].
  destruct (strncpy_segments pre body rest) as (Hp & Hbd & Hlen & Hr).
  cbn zeta in *.
  exists (length pre + 1 + length body)%nat. split; [done|].
  rewrite Hp, Hbd, Hlen, Hr.
  split_and!; [done|done|by apply closed_intro|by apply closed_intro].
Qed.

Lemma closed_text_splits_into_closed_parts_witness :
  ∃ e : nat,
    find_closing (cstr "+[>[-]<]-[]") = Z.of_nat e ∧
    is_open_block (strncpy (cstr "+[>[-]<]-[]") (e + 1) (11 - e - 1)) =
      CLOSED_BLOCK.
Proof.
  destruct (closed_text_splits_into_closed_parts (cstr "+[>[-]<]-[]") 1
              ltac:(reflexivity) ltac:(reflexivity))
    as (e & He & _ & _ & _ & Hsuffix).
  exists e. split; [exact He | exact Hsuffix].
Defined.

Section Safety.

Lemma on_tape_load (s : state) : on_tape s → ∃ v : Z, load s = Some v.
Proof.
  intros [Hlen Hcur]. unfold load.
  destruct (Z.ltb_spec (current_cell s) 0); [lia|].
  apply lookup_lt_is_Some_2. unfold MEMORY_SIZE in *. lia.
Qed.

Lemma on_tape_store (w : Z) (s : state) :
  on_tape s → ∃ s' : state, store w s = Some s' ∧ on_tape s'.
Proof.
  intros [Hlen Hcur]. unfold store.
  destruct (Z.ltb_spec (current_cell s) 0); [lia|].
  destruct (Nat.ltb_spec (Z.to_nat (current_cell s)) (length (memory s)));
    [|unfold MEMORY_SIZE in *; lia].
  eexists. split; [done|]. split; cbn; [by rewrite length_insert|done].
Qed.

Lemma dispatch_on_tape (c : ascii) (s : state) :
  c ≠ ">" → on_tape s →
  match dispatch c s with
  | Next s' | Return s' => on_tape s'
  | Fault => False
  end.
Proof.
  intros Hc Hs. unfold dispatch.
  destruct (Ascii.eqb_spec c "+") as [_|_].
  { destruct (on_tape_load s Hs) as [v ->]. cbn.
    by destruct (on_tape_store (to_char (v + 1)) s Hs) as (s' & -> & Hs'). }
  destruct (Ascii.eqb_spec c "-") as [_|_].
  { destruct (on_tape_load s Hs) as [v ->]. cbn.
    by destruct (on_tape_store (to_char (v - 1)) s Hs) as (s' & -> & Hs'). }
  destruct (Ascii.eqb_spec c ">") as [|_]; [done|].
  destruct (Ascii.eqb_spec c "<") as [_|_].
  { destruct Hs as [Hlen Hcur].
    destruct (Z.ltb_spec 0 (current_cell s)); split; cbn; done || lia. }
  destruct (Ascii.eqb_spec c ".") as [_|_].
  { by destruct (on_tape_load s Hs) as [v ->]. }
  destruct (Ascii.eqb_spec c ",") as [_|_]; [|done].
  pose proof (getchar_tape s) as (Hmem & Hcur & _).
  destruct (getchar s) as [ch s1]. cbn [snd] in *.
  assert (Hs1 : on_tape s1) by (unfold on_tape; by rewrite Hmem, Hcur).
  destruct (on_tape_store (to_char ch) s1 Hs1) as (s2 & -> & Hs2). cbn.
  destruct (on_tape_load s2 Hs2) as [v ->]. cbn.
  destruct (v =? 10); [|done].
  by destruct (on_tape_store 0 s2 Hs2) as (s3 & -> & Hs3).
Qed.

Lemma parse_command_on_tape (command : list ascii) :
  ∀ s : state, count_char ">" command = O → on_tape s →
    ∃ s' : state, parse_command command s = Done s' ∧ on_tape s'.
Proof.
  unfold parse_command.
  induction command as [|c command IH]; intros s Hcount Hs; [by exists s|].
  cbn [count_char] in Hcount. cbn [parse_command_loop].
  destruct (Ascii.eqb_spec c ">") as [|Hc]; [done|].
  pose proof (dispatch_on_tape c s Hc Hs) as Hstep.
  destruct (dispatch c s) as [s1|s1|]; [|by exists s1|done].
  apply IH; [lia|done].
Qed.

Lemma while_current_cell_on_tape (body : state → result) :
  (∀ s : state, on_tape s →
     match body s with
     | Done s' => on_tape s'
     | Undefined => False
     | Timeout => True
     end) →
  ∀ (fuel : nat) (s : state), on_tape s →
    match while_current_cell fuel body s with
    | Done s' => on_tape s'
    | Undefined => False
    | Timeout => True
    end.
Proof.
  intros Hbody fuel.
  induction fuel as [|fuel IH]; intros s Hs; cbn [while_current_cell];
    destruct (on_tape_load s Hs) as [v ->]; destruct (v =? 0); try done.
  pose proof (Hbody s Hs) as Hb.
  destruct (body s) as [s1| |]; [|done..]. cbn [bind]. by apply IH.
Qed.

Lemma run_segment_on_tape (fuel : nat) :
  ∀ (text : list ascii) (s : state),
    is_open_block text = CLOSED_BLOCK → count_char ">" text = O →
    on_tape s →
    match run_segment fuel text s with
    | Done s' => on_tape s'
    | Undefined => False
    | Timeout => True
    end.
Proof.
  induction fuel as [|fuel IH]; intros text s Hclosed Hcount Hs;
    unfold run_segment, has_char;
    destruct (strchr text "[") as [b|] eqn:Hb;
    try (by destruct (parse_command_on_tape text s Hcount Hs) as (s' & -> & ?)).
  { done. }
  destruct (closed_block_parts text b Hclosed Hb)
    as (pre & body & rest & -> & _ & Hpre & Hbnn & Hbnet & Hrnn & Hrnet).
  rewrite parse_block_split by done.
  rewrite count_char_app in Hcount. cbn [count_char] in Hcount.
  rewrite count_char_app in Hcount. cbn [count_char] in Hcount.
  destruct (parse_command_on_tape pre s ltac:(lia) Hs) as (s1 & -> & Hs1).
  cbn [bind].
  pose proof (while_current_cell_on_tape (run_segment fuel body)
                (λ s0 Hs0, IH body s0 (closed_intro _ Hbnn Hbnet) ltac:(lia) Hs0)
                fuel s1 Hs1) as Hloop.
  destruct (while_current_cell fuel _ s1) as [s2| |]; [|done..]. cbn [bind].
  apply IH; [by apply closed_intro|lia|done].
Qed.

End Safety.

(** X9. Without a [">"] in it, a text that [is_open_block] answers
    [CLOSED_BLOCK] for never makes the program leave the tape or use an
    index that [find_closing] did not find: entered with the cursor on a
    tape of [MEMORY_SIZE] cells, its execution is never undefined, and when
    it returns the cursor is on the tape again. *)
Theorem closed_text_without_right_is_defined
    (fuel : nat) (text : list ascii) (s : state) :
  is_open_block text = CLOSED_BLOCK → count_char ">" text = O →
  length (memory s) = Z.to_nat MEMORY_SIZE →
  0 <= current_cell s < MEMORY_SIZE →
  match run_segment fuel text s with
  | Done s' =>
      length (memory s') = Z.to_nat MEMORY_SIZE ∧
      0 <= current_cell s' < MEMORY_SIZE
  | Undefined => False
  | Timeout => True
  end.
Proof.
  intros Hclosed Hcount Hlen Hcur.
  by apply (run_segment_on_tape fuel text s Hclosed Hcount).
Qed.

Lemma closed_text_without_right_is_defined_witness :
  match run_segment 3 (cstr "-[+<]") (initial_state []) with
  | Done s' => 0 <= current_cell s' < MEMORY_SIZE
  | Undefined => False
  | Timeout => True
  end.
Proof.
  pose proof (closed_text_without_right_is_defined 3 (cstr "-[+<]")
                (initial_state []) eq_refl eq_refl eq_refl
                ltac:(vm_compute; split; [discriminate|reflexivity])) as H.
  destruct (run_segment 3 (cstr "-[+<]") (initial_state [])); [|exact H..].
  exact (proj2 H).
Defined.

Section ReadLoop.

Lemma to_char_byte (c : ascii) :
  (to_char (Z.of_N (N_of_ascii c)) = 10 → c = LF) ∧
  (to_char (Z.of_N (N_of_ascii c)) = EOF → c = "255").
Proof.
  pose proof (N_ascii_bounded c) as Hc.
  assert (Hback : ∀ n : N, N_of_ascii c = n → c = ascii_of_N n).
  { intros n <-. by rewrite ascii_N_embedding. }
  split; intros H.
  - assert (Z.of_N (N_of_ascii c) = 10) by (apply to_char_line_feed; [lia|done]).
    apply (Hback 10%N). lia.
  - apply (Hback 255%N). unfold to_char, EOF in H.
    destruct (Z.lt_ge_cases (Z.of_N (N_of_ascii c)) 128).
    + rewrite Z.mod_small in H; lia.
    + replace (Z.of_N (N_of_ascii c) + 128)
        with (Z.of_N (N_of_ascii c) - 128 + 1 * 256) in H by lia.
      rewrite Z_mod_plus_full, Z.mod_small in H; lia.
Qed.

Lemma plain_line_cons (c : ascii) (line : list ascii) :
  plain_line (c :: line) ↔ (c ≠ LF ∧ c ≠ "255" ∧ c ≠ zero) ∧ plain_line line.
Proof. unfold plain_line. by rewrite Forall_cons. Qed.

Lemma read_line_plain (line : list ascii) :
  plain_line line →
  (∀ rest : list ascii, read_line (line ++ LF :: rest) = (line, rest)) ∧
  read_line line = (line, []).
Proof.
  induction line as [|c line IH]; intros Hplain; [done|].
  apply plain_line_cons in Hplain as [(Hlf & Heof & _) Hline].
  destruct (IH Hline) as [IH1 IH2].
  assert (Hgo : (to_char (Z.of_N (N_of_ascii c)) =? 10) ||
                (to_char (Z.of_N (N_of_ascii c)) =? EOF) = false).
  { apply orb_false_intro; apply Z.eqb_neq; intros H;
      [apply Hlf|apply Heof]; by apply to_char_byte. }
  split; [intros rest; rewrite <- app_comm_cons|];
    cbn [read_line]; cbn zeta; rewrite Hgo; by rewrite ?IH1, ?IH2.
Qed.

Lemma until_nul_plain (line : list ascii) :
  plain_line line → until_nul line = line.
Proof.
  induction line as [|c line IH]; intros Hplain; [done|].
  apply plain_line_cons in Hplain as [(_ & _ & Hnul) Hline].
  cbn [until_nul]. destruct (Ascii.eqb_spec c zero); [done|]. by rewrite IH.
Qed.

(** [get_user_input] touches the input only. *)
Lemma get_user_input_state (s : state) :
  memory (get_user_input s).2 = memory s ∧
  current_cell (get_user_input s).2 = current_cell s ∧
  stdout (get_user_input s).2 = stdout s ∧
  (stdin s = [] → stdin (get_user_input s).2 = [] ∧ (get_user_input s).1 = []).
Proof.
  unfold get_user_input. destruct (read_line (stdin s)) as [line rest] eqn:Hr.
  cbn. split_and!; [done..|]. intros Hnil. rewrite Hnil in Hr.
  by injection Hr as <- <-.
Qed.

End ReadLoop.

(** X10. [get_user_input] gives back a line as it was typed: from an input
    that starts with a line without line feed, NUL or byte 255, followed by
    a line feed, it returns that line and leaves what comes after the line
    feed; when the input ends with the line, it returns the line and leaves
    nothing. Tape, cursor and output are not touched. *)
Theorem get_user_input_returns_the_line
    (line rest : list ascii) (s : state) :
  plain_line line →
  (stdin s = line ++ LF :: rest →
     get_user_input s = (line, set_stdin rest s)) ∧
  (stdin s = line → get_user_input s = (line, set_stdin [] s)).
Proof.
  intros Hplain. destruct (read_line_plain line Hplain) as [Hlf Hend].
  unfold get_user_input.
  split; intros ->; rewrite ?Hlf, ?Hend; by rewrite until_nul_plain.
Qed.

Lemma get_user_input_returns_the_line_witness :
  get_user_input (initial_state (cstr "+[-]" ++ LF :: cstr ">")) =
    (cstr "+[-]", initial_state (cstr ">")).
Proof.
  apply (proj1 (get_user_input_returns_the_line (cstr "+[-]") (cstr ">")
                  (initial_state (cstr "+[-]" ++ LF :: cstr ">"))
                  ltac:(repeat constructor; discriminate))).
  reflexivity.
Defined.


(** X12. A line that has a ["["] and on some prefix more closing than
    opening brackets is dropped by [main]: the message is printed, and tape,
    cursor and input are left as they were. *)
Theorem main_rejects_unbalanced_line_with_open
    (fuel : nat) (command : list ascii) (s : state) :
  has_char command "[" = true →
  (∃ k : nat, net (take k command) < 0) →
  execute_line fuel command s = Done (printf unbalanced_blocks_message s).
Proof.
  intros Hopen [k Hk]. unfold execute_line. rewrite Hopen.
  assert (Hinv : is_open_block command = INVALID_BLOCK).
  { apply is_open_block_from_dip; [lia|]. exists k. lia. }
  by rewrite Hinv.
Qed.

Lemma main_rejects_unbalanced_line_with_open_witness :
  execute_line 0 (cstr "+][-]") (initial_state []) =
    Done (printf unbalanced_blocks_message (initial_state [])).
Proof.
  apply (main_rejects_unbalanced_line_with_open 0 (cstr "+][-]")
           (initial_state [])).
  - reflexivity.
  - exists 2%nat. vm_compute. reflexivity.
Defined.

Section ReadBlock.

Lemma read_lines_state (n : nat) :
  ∀ s : state,
    memory (read_lines n s).2 = memory s ∧
    current_cell (read_lines n s).2 = current_cell s.
Proof.
  induction n as [|n IH]; intros s; [done|]. cbn [read_lines].
  pose proof (get_user_input_state (printf continuation_prompt s))
    as (Hm & Hc & _).
  destruct (get_user_input (printf continuation_prompt s)) as [line s1].
  cbn in Hm, Hc. destruct (IH s1) as [Hm' Hc'].
  destruct (read_lines n s1) as [more s2]. cbn in *. split; congruence.
Qed.

(** A text that is neither open nor invalid is closed. *)
Lemma is_open_block_three (text : list ascii) :
  is_open_block text ≠ OPENED_BLOCK → is_open_block text ≠ INVALID_BLOCK →
  is_open_block text = CLOSED_BLOCK.
Proof.
  intros Hopen Hinv.
  destruct (is_open_block_cases text) as (Hi & Hc & Ho).
  destruct (dip_or_never text 0 ltac:(lia)) as [[k Hk]|Hall].
  { exfalso. apply Hinv, Hi. exists k. lia. }
  assert (Hnn : never_negative text).
  { intros k. specialize (Hall k). lia. }
  apply Hc. split; [done|].
  destruct (Z.lt_trichotomy (net text) 0) as [?|[?|?]]; [|done|].
  - specialize (Hnn (length text)). rewrite firstn_all in Hnn. lia.
  - exfalso. by apply Hopen, Ho.
Qed.

End ReadBlock.

(** X13. When [read_block] returns, it has read exactly as many lines as
    it took for the command with the lines appended to stop being answered
    [OPENED_BLOCK], each after printing the continuation prompt: with fewer
    lines the text was still open. It returns that text, in the state the
    last line was read in, when the text is answered [CLOSED_BLOCK]; it
    returns the null pointer, after printing its message in that state, when
    the text is answered [INVALID_BLOCK]. Tape and cursor are left as they
    were. *)
Theorem read_block_returns_closed_text (fuel : nat) :
  ∀ (command : list ascii) (s s' : state) (returned : option (list ascii)),
    read_block fuel command s = Some (returned, s') →
    ∃ n : nat,
      (n <= fuel)%nat ∧
      (∀ k : nat, (k < n)%nat →
         is_open_block (command ++ (read_lines k s).1) = OPENED_BLOCK) ∧
      is_open_block (command ++ (read_lines n s).1) ≠ OPENED_BLOCK ∧
      match returned with
      | Some command' =>
          command' = command ++ (read_lines n s).1 ∧
          s' = (read_lines n s).2 ∧
          is_open_block command' = CLOSED_BLOCK
      | None =>
          is_open_block (command ++ (read_lines n s).1) = INVALID_BLOCK ∧
          s' = printf unbalanced_brackets_message (read_lines n s).2
      end ∧
      memory s' = memory s ∧ current_cell s' = current_cell s.
Proof.
  induction fuel as [|fuel IH]; intros command s s' returned Hrun;
    cbn [read_block] in Hrun; cbn zeta in Hrun;
    destruct (Z.eqb_spec (is_open_block command) OPENED_BLOCK) as [Hopen|Hopen];
    try done.
  1, 3: exists O; cbn [read_lines fst snd]; rewrite app_nil_r;
    destruct (Z.eqb_spec (is_open_block command) INVALID_BLOCK) as [Hinv|Hinv];
    injection Hrun as <- <-;
    split_and!; try done; try lia; try (intros k Hk; lia);
    by apply is_open_block_three.
  destruct (get_user_input (printf continuation_prompt s))
    as [new_command s1] eqn:Hline.
  destruct (IH _ _ _ _ Hrun) as (n & Hn & Hbefore & Hstop & Hret & _).
  pose proof (read_lines_state (S n) s) as Hstate.
  assert (Hread : ∀ k : nat,
            command ++ (read_lines (S k) s).1 =
              (command ++ new_command) ++ (read_lines k s1).1 ∧
            (read_lines (S k) s).2 = (read_lines k s1).2).
  { intros k. cbn [read_lines]. rewrite Hline.
    destruct (read_lines k s1) as [more s2]. cbn [fst snd].
    by rewrite app_assoc. }
  destruct (Hread n) as [Htext Hlast].
  exists (S n). rewrite Htext, Hlast in *. split_and!.
  - lia.
  - intros [|k] Hk.
    + cbn [read_lines fst]. by rewrite app_nil_r.
    + rewrite (proj1 (Hread k)). apply Hbefore. lia.
  - done.
  - done.
  - destruct returned as [command'|].
    + destruct Hret as (_ & -> & _). apply Hstate.
    + destruct Hret as (_ & ->). apply Hstate.
  - destruct returned as [command'|].
    + destruct Hret as (_ & -> & _). apply Hstate.
    + destruct Hret as (_ & ->). apply Hstate.
Qed.

(** An instance: ["+["] completed by the lines ["-"] and ["]"], with [">"]
    left unread. *)
Lemma read_block_returns_closed_text_witness :
  ∃ n : nat,
    (n <= 2)%nat ∧
    (∀ k : nat, (k < n)%nat →
       is_open_block
         (cstr "+[" ++
          (read_lines k
             (initial_state (cstr "-" ++ LF :: cstr "]" ++ LF :: cstr ">"))).1) =
       OPENED_BLOCK) ∧
    cstr "+[-]" =
      cstr "+[" ++
      (read_lines n
         (initial_state (cstr "-" ++ LF :: cstr "]" ++ LF :: cstr ">"))).1 ∧
    printf (continuation_prompt ++ continuation_prompt)
      (initial_state (cstr ">")) =
      (read_lines n
         (initial_state (cstr "-" ++ LF :: cstr "]" ++ LF :: cstr ">"))).2.
Proof.
  destruct (read_block_returns_closed_text 2 (cstr "+[")
              (initial_state (cstr "-" ++ LF :: cstr "]" ++ LF :: cstr ">"))
              (printf (continuation_prompt ++ continuation_prompt)
                 (initial_state (cstr ">")))
              (Some (cstr "+[-]")) eq_refl)
    as (n & Hn & Hbefore & _ & (Htext & Hstate & _) & _).
  exists n. split; [exact Hn|]. split; [exact Hbefore|].
  split; [exact Htext | exact Hstate].
Defined.

Section Inverses.

Lemma to_char_add (a b : Z) : to_char (to_char a + b) = to_char (a + b).
Proof.
  unfold to_char. f_equal.
  replace ((a + 128) mod 256 - 128 + b + 128) with ((a + 128) mod 256 + b)
    by lia.
  rewrite Zplus_mod_idemp_l. f_equal. lia.
Qed.

(** Writing twice to the cell at the cursor, the second time what was there
    at first, gives the first state back. *)
Lemma store_twice_back (w v : Z) (s : state) :
  load s = Some v →
  ∃ s1 : state,
    store w s = Some s1 ∧ load s1 = Some w ∧ store v s1 = Some s.
Proof.
  intros Hv. destruct (store_loaded w s v Hv) as [Hst Hld].
  eexists. split_and!; [done..|].
  destruct (store_loaded v _ w Hld) as [Hst' _]. rewrite Hst'.
  unfold load in Hv. destruct (current_cell s <? 0); [done|].
  destruct s as [m p i o]. unfold set_memory. cbn in *.
  by rewrite list_insert_insert_eq, list_insert_id.
Qed.

Lemma dispatch_right (s : state) :
  current_cell s < MEMORY_SIZE →
  dispatch ">" s = Next (set_current_cell (current_cell s + 1) s).
Proof.
  intros Hcur. unfold dispatch. cbn [Ascii.eqb Bool.eqb andb].
  by destruct (Z.ltb_spec 0 (MEMORY_SIZE - current_cell s)); [|lia].
Qed.

Lemma dispatch_left (s : state) :
  0 < current_cell s →
  dispatch "<" s = Next (set_current_cell (current_cell s - 1) s).
Proof.
  intros Hcur. unfold dispatch. cbn [Ascii.eqb Bool.eqb andb].
  by destruct (Z.ltb_spec 0 (current_cell s)); [|lia].
Qed.

End Inverses.

(** X14. A move right followed by a move left, from any cell of the tape,
    and a move left followed by a move right, from any cell but the first
    (the position past the last cell included), give the state they were
    entered in back, with nothing printed. *)
Theorem moves_are_inverse (s : state) :
  (0 <= current_cell s < MEMORY_SIZE → parse_command (cstr "><") s = Done s) ∧
  (0 < current_cell s <= MEMORY_SIZE → parse_command (cstr "<>") s = Done s).
Proof.
  unfold parse_command, cstr.
  cbn [list_ascii_of_string parse_command_loop].
  split; intros Hcur.
  - rewrite dispatch_right by lia.
    rewrite dispatch_left by (cbn; lia).
    destruct s as [m p i o]. cbn. by replace (p + 1 - 1) with p by lia.
  - rewrite dispatch_left by lia.
    rewrite dispatch_right by (cbn; lia).
    destruct s as [m p i o]. cbn. by replace (p - 1 + 1) with p by lia.
Qed.

Lemma moves_are_inverse_witness :
  parse_command (cstr "><") (initial_state []) = Done (initial_state []).
Proof.
  apply (proj1 (moves_are_inverse (initial_state []))).
  vm_compute. split; [discriminate|reflexivity].
Defined.

(** X15. On a cell of the tape that holds a value of type [char], an
    increment followed by a decrement and a decrement followed by an
    increment give the state they were entered in back, at the ends of the
    range of [char] too. *)
Theorem increment_and_decrement_are_inverse (s : state) (v : Z) :
  load s = Some v → -128 <= v <= 127 →
  parse_command (cstr "+-") s = Done s ∧ parse_command (cstr "-+") s = Done s.
Proof.
  intros Hv Hrange.
  assert (Hpair : ∀ d : Z,
            to_char (to_char (v + d) - d) = v ∧
            to_char (to_char (v + d) + d - d - d) = v).
  { intros d.
    replace (to_char (v + d) - d) with (to_char (v + d) + - d) by lia.
    replace (to_char (v + d) + d - d - d) with (to_char (v + d) + - d) by lia.
    rewrite to_char_add.
    replace (v + d + - d) with v by lia. split; by apply to_char_id. }
  unfold parse_command, cstr.
  cbn [list_ascii_of_string parse_command_loop].
  split.
  - destruct (store_twice_back (to_char (v + 1)) v s Hv) as (s1 & Hst & Hld & Hback).
    unfold dispatch at 1. cbn [Ascii.eqb Bool.eqb andb].
    rewrite Hv. cbn [mbind option_bind]. rewrite Hst. cbn [flow_of_option].
    unfold dispatch. cbn [Ascii.eqb Bool.eqb andb].
    rewrite Hld. cbn [mbind option_bind].
    rewrite (proj1 (Hpair 1)), Hback. done.
  - destruct (store_twice_back (to_char (v - 1)) v s Hv) as (s1 & Hst & Hld & Hback).
    unfold dispatch at 1. cbn [Ascii.eqb Bool.eqb andb].
    rewrite Hv. cbn [mbind option_bind]. rewrite Hst. cbn [flow_of_option].
    unfold dispatch. cbn [Ascii.eqb Bool.eqb andb].
    rewrite Hld. cbn [mbind option_bind].
    replace (to_char (v - 1) + 1) with (to_char (v + -1) - -1) by (f_equal; lia).
    rewrite (proj1 (Hpair (-1))), Hback. done.
Qed.

Lemma increment_and_decrement_are_inverse_witness :
  parse_command (cstr "+-") (mkState [127; 0] 0 [] []) =
    Done (mkState [127; 0] 0 [] []).
Proof.
  apply (proj1 (increment_and_decrement_are_inverse
                  (mkState [127; 0] 0 [] []) 127 eq_refl
                  ltac:(split; discriminate))).
Defined.

(** X16. A command made of two parts is executed as the first part
    followed by the second from the state the first one left, when the
    first is scanned to its end; when the first is refused a move, the
    second is not executed at all. *)
Theorem command_parts_compose (first second : list ascii) (s : state) :
  parse_command (first ++ second) s =
    match parse_command_loop first s with
    | Next s' => parse_command second s'
    | Return s' => Done s'
    | Fault => Undefined
    end.
Proof.
  unfold parse_command. revert s.
  induction first as [|c first IH]; intros s; [done|].
  rewrite <- app_comm_cons. cbn [parse_command_loop].
  destruct (dispatch c s) as [s1| |]; [apply IH|done..].
Qed.

(** X17. A block whose body has no instruction and no bracket, entered on a
    cell that is not zero, never returns: no amount of fuel is enough. *)
Theorem block_of_comments_never_returns
    (fuel : nat) (body : list ascii) (s : state) (v : Z) :
  Forall (λ c, is_instruction c = false ∧ c ≠ "[" ∧ c ≠ "]") body →
  load s = Some v → v ≠ 0 →
  parse_block fuel ("[" :: body ++ ["]"]) s = Timeout.
Proof.
  intros Hbody Hv Hnz.
  assert (Hflat : flat body).
  { eapply Forall_impl; [exact Hbody|]. by intros c (_ & ? & ?). }
  assert (Hskip : parse_command body s = Done s).
  { rewrite <- other_characters_skipped.
    replace (List.filter is_instruction body) with (@nil ascii); [done|].
    clear Hflat. induction Hbody as [|c l (Hc & _) _ IH]; [done|].
    cbn [List.filter]. by rewrite Hc. }
  destruct fuel as [|fuel]; [done|].
  destruct (flat_never_negative body Hflat) as [Hnn Hnet].
  pose proof (parse_block_split fuel [] body [] s (Forall_nil_2 _) Hnn Hnet)
    as Hsplit.
  rewrite app_nil_l in Hsplit. rewrite Hsplit.
  cbn [parse_command parse_command_loop bind].
  assert (Hloop : ∀ n : nat,
            while_current_cell n (run_segment fuel body) s = Timeout).
  { induction n as [|n IH]; cbn [while_current_cell]; rewrite Hv;
      destruct (Z.eqb_spec v 0); try done.
    rewrite (run_segment_flat fuel body s Hflat), Hskip. done. }
  by rewrite Hloop.
Qed.

Lemma block_of_comments_never_returns_witness :
  parse_block 9 ("[" :: cstr "wait" ++ ["]"]) (mkState [1; 0] 0 [] []) = Timeout.
Proof.
  apply (block_of_comments_never_returns 9 (cstr "wait")
           (mkState [1; 0] 0 [] []) 1).
  - repeat constructor; discriminate.
  - reflexivity.
  - discriminate.
Defined.
